(** * CPU scheduling simulators of [schedulers.go]

    A shallow embedding of the four schedulers of the repository
    ([FCFSSchedule], [SJFSchedule], [SJFPrioritySchedule], [RRSchedule])
    and the properties the specification states about them.

    Conventions of the embedding:
    - Go's [int64] is a [Z] with the two's-complement wrap-around written out
      ([Int64.wrap]); a well-typed value satisfies [Int64.in_range].
    - Go's [float64] is IEEE-754 binary64, taken from the standard library's
      executable specification [SpecFloat] (precision 53, [emax] 1024,
      round to nearest even, one NaN).
    - [sort.Slice] is the Go standard library's; only its contract is used
      (class [Sorter]); an instance shows the contract is met.
    - The writer [w] is a list of output events, appended to in program
      order. *)

From Stdlib Require Import ZArith Lia Bool SpecFloat.
From stdpp Require Import base list strings sorting.

Local Open Scope Z_scope.

(** ** Machine integers *)

Module Int64.
Definition min_int : Z := - 2 ^ 63.
Definition max_int : Z := 2 ^ 63 - 1.
Definition modulus : Z := 2 ^ 64.

Definition in_range (z : Z) : Prop := min_int <= z <= max_int.

Definition wrap (z : Z) : Z := (z + 2 ^ 63) mod modulus - 2 ^ 63.

Definition add (a b : Z) : Z := wrap (a + b).
Definition sub (a b : Z) : Z := wrap (a - b).
End Int64.

(** ** Floating point *)

Module Float64.
Definition prec : Z := 53.
Definition emax : Z := 1024.

Definition t : Type := spec_float.

Definition zero : t := S754_zero false.

(** The conversion [float64(x)] of an integer. *)
Definition of_int (z : Z) : t := binary_normalize prec emax z 0 false.

Definition add (x y : t) : t := SFadd prec emax x y.
Definition div (x y : t) : t := SFdiv prec emax x y.
Definition ltb (x y : t) : bool := SFltb x y.

Definition is_nan (x : t) : bool :=
  match x with S754_nan => true | _ => false end.
End Float64.

(** ** Data model *)

Record Process : Type := mkProcess {
  ProcessID : string;
  ArrivalTime : Z;
  BurstDuration : Z;
  Priority : Z;
  Completed : bool;
  Turnaround : Z;
  Waiting : Z;
  Burst : Z
}.

Record TimeSlice : Type := mkTimeSlice {
  PID : string;
  Start : Z;
  Stop : Z
}.

(** A row of the schedule table: the seven values the source formats with
    [fmt.Sprint] or [%d], in column order. *)
Record Row : Type := mkRow {
  row_pid : string;
  row_priority : Z;
  row_burst : Z;
  row_arrival : Z;
  row_waiting : Z;
  row_turnaround : Z;
  row_completion : Z
}.

(** What reaches the writer.  The [Out...] events record the calls of
    [outputTitle], [outputGantt] and [outputSchedule] with their arguments;
    the [Log...] events are the five [fmt.Fprintf] formats of
    [SJFPrioritySchedule], with the values they print. *)
Inductive Output : Type :=
| OutTitle (title : string)
| OutGantt (gantt : list TimeSlice)
| OutSchedule (rows : list (option Row)) (aveWait aveTurnaround aveThroughput : Float64.t)
| LogHeader (title : string)
| LogCompleted (pid : string) (currentTime waitTime turnaroundTime : Z)
| LogAvgWait (avgWait : Float64.t)
| LogAvgTurnaround (avgTurnaround : Float64.t)
| LogThroughput (throughput : Float64.t).

Definition Writer : Type := list Output.

(** Modelled from the spec: [outputTitle], [outputGantt] and [outputSchedule]
    are called by the schedulers but are not in [schedulers.go]; the
    specification treats the writer as an opaque sink that receives the
    title, the timeline and the rows with the three aggregates (section 6),
    so each call appends one event holding its arguments. *)
Definition outputTitle (w : Writer) (title : string) : Writer :=
  w ++ [OutTitle title].
Definition outputGantt (w : Writer) (gantt : list TimeSlice) : Writer :=
  w ++ [OutGantt gantt].
Definition outputSchedule (w : Writer) (rows : list (option Row))
    (aveWait aveTurnaround aveThroughput : Float64.t) : Writer :=
  w ++ [OutSchedule rows aveWait aveTurnaround aveThroughput].
Definition Fprintf (w : Writer) (line : Output) : Writer := w ++ [line].

(** ** [for i, x := range l] *)

Fixpoint for_range_from {A St : Type} (i : nat) (l : list A)
    (body : nat → A → St → St) (s : St) : St :=
  match l with
  | [] => s
  | x :: l' => for_range_from (S i) l' body (body i x s)
  end.

Definition for_range {A St : Type} (l : list A) (body : nat → A → St → St) (s : St) : St :=
  for_range_from 0 l body s.

(** ** [sort.Slice] *)

(** The requirement Go puts on a [less] function: a transitive ordering,
    whose negation is transitive as well. *)
Record TransitiveOrdering {A : Type} (less : A → A → bool) : Prop := {
  less_irrefl : ∀ x, less x x = false;
  less_trans : ∀ x y z, less x y = true → less y z = true → less x z = true;
  less_cotrans : ∀ x y z, less x y = false → less y z = false → less x z = false
}.

(** [not_after less a b]: [a] may stand before [b] in a slice sorted by [less]. *)
Definition not_after {A : Type} (less : A → A → bool) (a b : A) : Prop :=
  less b a = false.

Class Sorter : Type := {
  sort_Slice : ∀ {A : Type}, (A → A → bool) → list A → list A;
  sort_Slice_perm : ∀ {A : Type} (less : A → A → bool) (l : list A),
    sort_Slice less l ≡ₚ l;
  sort_Slice_sorted : ∀ {A : Type} (less : A → A → bool) (l : list A),
    TransitiveOrdering less → StronglySorted (not_after less) (sort_Slice less l)
}.

(** ** The [max] helper of the source *)

Definition max (a b : Z) : Z := if a >? b then a else b.

(** ** [FCFSSchedule] *)

Record fcfs_vars : Type := mkFcfs {
  f_serviceTime : Z;
  f_totalWait : Float64.t;
  f_totalTurnaround : Float64.t;
  f_lastCompletion : Float64.t;
  f_waitingTime : Z;
  f_schedule : list (option Row);
  f_gantt : list TimeSlice
}.

Definition fcfs_init (n : nat) : fcfs_vars :=
  mkFcfs 0 Float64.zero Float64.zero Float64.zero 0 (replicate n None) [].

Definition fcfs_body (i : nat) (p : Process) (v : fcfs_vars) : fcfs_vars :=
  let waitingTime :=
    if ArrivalTime p >? 0 then Int64.sub (f_serviceTime v) (ArrivalTime p)
    else f_waitingTime v in
  let totalWait := Float64.add (f_totalWait v) (Float64.of_int waitingTime) in
  let start := Int64.add waitingTime (ArrivalTime p) in
  let turnaround := Int64.add (BurstDuration p) waitingTime in
  let totalTurnaround := Float64.add (f_totalTurnaround v) (Float64.of_int turnaround) in
  let completion :=
    Int64.add (Int64.add (BurstDuration p) (ArrivalTime p)) waitingTime in
  let lastCompletion := Float64.of_int completion in
  let schedule :=
    <[i := Some (mkRow (ProcessID p) (Priority p) (BurstDuration p) (ArrivalTime p)
                       waitingTime turnaround completion)]> (f_schedule v) in
  let serviceTime := Int64.add (f_serviceTime v) (BurstDuration p) in
  let gantt := f_gantt v ++ [mkTimeSlice (ProcessID p) start serviceTime] in
  mkFcfs serviceTime totalWait totalTurnaround lastCompletion waitingTime schedule gantt.

Definition fcfs_loop (processes : list Process) : fcfs_vars :=
  for_range processes fcfs_body (fcfs_init (length processes)).

Definition FCFSSchedule (w : Writer) (title : string) (processes : list Process) : Writer :=
  let v := fcfs_loop processes in
  let count := Float64.of_int (Z.of_nat (length processes)) in
  let aveWait := Float64.div (f_totalWait v) count in
  let aveTurnaround := Float64.div (f_totalTurnaround v) count in
  let aveThroughput := Float64.div count (f_lastCompletion v) in
  let w := outputTitle w title in
  let w := outputGantt w (f_gantt v) in
  outputSchedule w (f_schedule v) aveWait aveTurnaround aveThroughput.

(** ** [SJFSchedule] *)

(** The comparison handed to [sort.Slice]: ascending burst duration. *)
Definition burst_less (p q : Process) : bool := BurstDuration p <? BurstDuration q.

Record sjf_vars : Type := mkSjf {
  s_currentTime : Z;
  s_totalWait : Float64.t;
  s_totalTurnaround : Float64.t;
  s_schedule : list (option Row);
  s_gantt : list TimeSlice
}.

(** [make([]TimeSlice, n)] holds [n] zero values. *)
Definition zero_TimeSlice : TimeSlice := mkTimeSlice EmptyString 0 0.

Definition sjf_init (n : nat) : sjf_vars :=
  mkSjf 0 Float64.zero Float64.zero (replicate n None) (replicate n zero_TimeSlice).

Definition sjf_body (i : nat) (process : Process) (v : sjf_vars) : sjf_vars :=
  let waitTime := max 0 (Int64.sub (s_currentTime v) (ArrivalTime process)) in
  let currentTime :=
    Int64.add (max (s_currentTime v) (ArrivalTime process)) (BurstDuration process) in
  let turnaroundTime := Int64.sub currentTime (ArrivalTime process) in
  let totalWait := Float64.add (s_totalWait v) (Float64.of_int waitTime) in
  let totalTurnaround := Float64.add (s_totalTurnaround v) (Float64.of_int turnaroundTime) in
  let schedule :=
    <[i := Some (mkRow (ProcessID process) (Priority process) (BurstDuration process)
                       (ArrivalTime process) waitTime turnaroundTime currentTime)]>
      (s_schedule v) in
  let gantt :=
    <[i := mkTimeSlice (ProcessID process)
                       (Int64.sub currentTime (BurstDuration process)) currentTime]>
      (s_gantt v) in
  mkSjf currentTime totalWait totalTurnaround schedule gantt.

Definition sjf_loop (processes : list Process) : sjf_vars :=
  for_range processes sjf_body (sjf_init (length processes)).

(** ** [SJFPrioritySchedule] *)

(** The pre-sort: ascending arrival time. *)
Definition arrival_less (p q : Process) : bool := ArrivalTime p <? ArrivalTime q.

(** The zero value of [Process]; [processes !!! i] reads [processes[i]].  The
    source would panic on an index out of range; the indices it uses come
    from a [range] loop over the same slice (see [available_lt_length]). *)
Definition zero_Process : Process := mkProcess EmptyString 0 0 0 false 0 0 0.

#[export] Instance Process_inhabited : Inhabited Process := populate zero_Process.

(** Body of the filter loop: collect the indices of the processes that have
    arrived and are not completed. *)
Definition is_ready (currentTime : Z) (p : Process) : bool :=
  negb (Completed p) && (ArrivalTime p <=? currentTime).

Definition available_body (currentTime : Z) (i : nat) (p : Process)
    (available : list nat) : list nat :=
  if is_ready currentTime p then available ++ [i] else available.

Definition ready_indices (processes : list Process) (currentTime : Z) : list nat :=
  for_range processes (available_body currentTime) [].

(** The comparison of the second [sort.Slice]: burst duration, then priority. *)
Definition available_less (processes : list Process) (i j : nat) : bool :=
  if BurstDuration (processes !!! i) =? BurstDuration (processes !!! j)
  then Priority (processes !!! i) <? Priority (processes !!! j)
  else BurstDuration (processes !!! i) <? BurstDuration (processes !!! j).

Definition set_Completed (p : Process) : Process :=
  mkProcess (ProcessID p) (ArrivalTime p) (BurstDuration p) (Priority p) true
            (Turnaround p) (Waiting p) (Burst p).

(** The variables of the main loop.  [completed] counts loop iterations that
    ran a process, so it is kept as a natural number. *)
Record psjf_vars : Type := mkPsjf {
  p_currentTime : Z;
  p_totalWait : Float64.t;
  p_totalTurnaround : Float64.t;
  p_completed : nat;
  p_processes : list Process;
  p_w : Writer
}.

Section WithSorter.
Context `{Sorter}.

Definition SJFSchedule (w : Writer) (title : string) (processes : list Process)
    : Writer * list Process :=
  let processes := sort_Slice burst_less processes in
  let v := sjf_loop processes in
  let aveWait := Float64.div (s_totalWait v) (Float64.of_int (Z.of_nat (length processes))) in
  let aveTurnaround :=
    Float64.div (s_totalTurnaround v) (Float64.of_int (Z.of_nat (length processes))) in
  let throughput :=
    Float64.div (Float64.of_int (Z.of_nat (length processes)))
                (Float64.of_int (s_currentTime v)) in
  let w := outputTitle w title in
  let w := outputGantt w (s_gantt v) in
  (outputSchedule w (s_schedule v) aveWait aveTurnaround throughput, processes).

(** The sorted ready set of one iteration. *)
Definition available (processes : list Process) (currentTime : Z) : list nat :=
  sort_Slice (available_less processes) (ready_indices processes currentTime).

(** One iteration of [for completed < len(processes)]. *)
Definition psjf_iter (v : psjf_vars) : psjf_vars :=
  match available (p_processes v) (p_currentTime v) with
  | [] =>
      mkPsjf (Int64.add (p_currentTime v) 1) (p_totalWait v) (p_totalTurnaround v)
             (p_completed v) (p_processes v) (p_w v)
  | idx :: _ =>
      let p := p_processes v !!! idx in
      let waitTime := Int64.sub (p_currentTime v) (ArrivalTime p) in
      let turnaroundTime := Int64.add waitTime (BurstDuration p) in
      let totalWait := Float64.add (p_totalWait v) (Float64.of_int waitTime) in
      let totalTurnaround :=
        Float64.add (p_totalTurnaround v) (Float64.of_int turnaroundTime) in
      let processes := alter set_Completed idx (p_processes v) in
      let completed := S (p_completed v) in
      let currentTime := Int64.add (p_currentTime v) (BurstDuration p) in
      let w := Fprintf (p_w v)
                 (LogCompleted (ProcessID p) currentTime waitTime turnaroundTime) in
      mkPsjf currentTime totalWait totalTurnaround completed processes w
  end.

(** The loop, with a bound on the number of iterations: [None] means the
    bound was reached with the loop condition still true. *)
Fixpoint psjf_loop (fuel : nat) (v : psjf_vars) : option psjf_vars :=
  if (p_completed v <? length (p_processes v))%nat then
    match fuel with
    | O => None
    | S fuel' => psjf_loop fuel' (psjf_iter v)
    end
  else Some v.

Definition psjf_start (w : Writer) (title : string) (processes : list Process)
    : psjf_vars :=
  mkPsjf 0 Float64.zero Float64.zero 0
         (sort_Slice arrival_less processes) (Fprintf w (LogHeader title)).

Definition psjf_finish (v : psjf_vars) : Writer * list Process :=
  let n := Float64.of_int (Z.of_nat (length (p_processes v))) in
  let avgWait := Float64.div (p_totalWait v) n in
  let avgTurnaround := Float64.div (p_totalTurnaround v) n in
  let throughput := Float64.div n (Float64.of_int (p_currentTime v)) in
  let w := Fprintf (p_w v) (LogAvgWait avgWait) in
  let w := Fprintf w (LogAvgTurnaround avgTurnaround) in
  let w := Fprintf w (LogThroughput throughput) in
  (w, p_processes v).

Definition SJFPrioritySchedule (fuel : nat) (w : Writer) (title : string)
    (processes : list Process) : option (Writer * list Process) :=
  psjf_finish <$> psjf_loop fuel (psjf_start w title processes).
End WithSorter.

(** ** [RRSchedule] *)

(** The body of the source function is empty. *)
Definition RRSchedule (w : Writer) (title : string) (processes : list Process) : Writer := w.

(** ** The examples of the specification *)

Definition example_processes : list Process :=
  [ mkProcess "A" 0 5 1 false 0 0 0;
    mkProcess "B" 1 3 2 false 0 0 0;
    mkProcess "C" 2 1 3 false 0 0 0 ].

(** * Vocabulary of the properties *)

(** ** The main loop of [SJFPrioritySchedule] *)

(** The order of the second sort, read on processes. *)
Definition shorter_or_prior (p q : Process) : Prop :=
  BurstDuration p <= BurstDuration q ∧
  (BurstDuration p = BurstDuration q → Priority p <= Priority q).

(** The number of processes whose [Completed] flag is set. *)
Fixpoint count_completed (l : list Process) : nat :=
  match l with
  | [] => 0
  | p :: l' => (if Completed p then 1 else 0) + count_completed l'
  end.

(** The two shapes of an iteration: an idle tick, and the run of the
    process at [idx]. *)
Definition psjf_tick (v : psjf_vars) : psjf_vars :=
  mkPsjf (Int64.add (p_currentTime v) 1) (p_totalWait v) (p_totalTurnaround v)
         (p_completed v) (p_processes v) (p_w v).

Definition psjf_run (v : psjf_vars) (idx : nat) (p : Process) : psjf_vars :=
  mkPsjf (Int64.add (p_currentTime v) (BurstDuration p))
         (Float64.add (p_totalWait v)
            (Float64.of_int (Int64.sub (p_currentTime v) (ArrivalTime p))))
         (Float64.add (p_totalTurnaround v)
            (Float64.of_int (Int64.add (Int64.sub (p_currentTime v) (ArrivalTime p))
                                       (BurstDuration p))))
         (S (p_completed v))
         (alter set_Completed idx (p_processes v))
         (p_w v ++ [LogCompleted (ProcessID p)
                      (Int64.add (p_currentTime v) (BurstDuration p))
                      (Int64.sub (p_currentTime v) (ArrivalTime p))
                      (Int64.add (Int64.sub (p_currentTime v) (ArrivalTime p))
                                 (BurstDuration p))]).

(** A process as the type [Process] allows it: its [int64] fields in range. *)
Definition well_typed (p : Process) : Prop :=
  Int64.in_range (ArrivalTime p) ∧ Int64.in_range (BurstDuration p) ∧
  Int64.in_range (Priority p).

Definition arrival_typed (p : Process) : Prop := Int64.in_range (ArrivalTime p).

(** The loop condition [completed < len(processes)]. *)
Definition loop_cond (v : psjf_vars) : Prop :=
  (p_completed v < length (p_processes v))%nat.

(** What the main loop maintains when no flag is set on entry: the counter
    is the number of set flags. *)
Definition counted (v : psjf_vars) : Prop :=
  Int64.in_range (p_currentTime v) ∧ Forall arrival_typed (p_processes v) ∧
  p_completed v = count_completed (p_processes v).

(** An idle tick without wrap-around. *)
Definition tick_exact (v : psjf_vars) : psjf_vars :=
  mkPsjf (p_currentTime v + 1) (p_totalWait v) (p_totalTurnaround v)
         (p_completed v) (p_processes v) (p_w v).

Section IterationsDef.
Context `{Sorter}.

(** The state after [k] iterations. *)
Fixpoint psjf_nth (k : nat) (v : psjf_vars) : psjf_vars :=
  match k with
  | O => v
  | S k' => psjf_nth k' (psjf_iter v)
  end.

End IterationsDef.

(** ** The loops of [FCFSSchedule] and [SJFSchedule], unrolled

    The rows and segments the loops write, as functions of the processes
    still to come and of the variables the loop carries; the loops are
    proved to compute them below ([fcfs_loop_spec], [sjf_loop_spec]). *)

(** The waiting time of a process, from the service time and the waiting
    time left by the processes before it. *)
Definition fcfs_wait (serviceTime waitingTime : Z) (p : Process) : Z :=
  if ArrivalTime p >? 0 then Int64.sub serviceTime (ArrivalTime p) else waitingTime.

Definition fcfs_row (serviceTime waitingTime : Z) (p : Process) : Row :=
  mkRow (ProcessID p) (Priority p) (BurstDuration p) (ArrivalTime p)
        (fcfs_wait serviceTime waitingTime p)
        (Int64.add (BurstDuration p) (fcfs_wait serviceTime waitingTime p))
        (Int64.add (Int64.add (BurstDuration p) (ArrivalTime p))
                   (fcfs_wait serviceTime waitingTime p)).

Definition fcfs_slice (serviceTime waitingTime : Z) (p : Process) : TimeSlice :=
  mkTimeSlice (ProcessID p)
              (Int64.add (fcfs_wait serviceTime waitingTime p) (ArrivalTime p))
              (Int64.add serviceTime (BurstDuration p)).

Fixpoint fcfs_rows (serviceTime waitingTime : Z) (l : list Process) : list Row :=
  match l with
  | [] => []
  | p :: l' =>
      fcfs_row serviceTime waitingTime p
      :: fcfs_rows (Int64.add serviceTime (BurstDuration p))
                   (fcfs_wait serviceTime waitingTime p) l'
  end.

Fixpoint fcfs_slices (serviceTime waitingTime : Z) (l : list Process) : list TimeSlice :=
  match l with
  | [] => []
  | p :: l' =>
      fcfs_slice serviceTime waitingTime p
      :: fcfs_slices (Int64.add serviceTime (BurstDuration p))
                     (fcfs_wait serviceTime waitingTime p) l'
  end.

(** The running float totals, over the rows in order. *)
Definition total_of (f : Row → Z) (start : Float64.t) (rows : list Row) : Float64.t :=
  foldl (λ acc r, Float64.add acc (Float64.of_int (f r))) start rows.

Definition last_completion (start : Float64.t) (rows : list Row) : Float64.t :=
  match last rows with
  | Some r => Float64.of_int (row_completion r)
  | None => start
  end.

(** The input on which [FCFSSchedule] reports a negative waiting time. *)
Definition late_process : list Process := [mkProcess "A" 5 3 1 false 0 0 0].

(** The clock after running [process] from the clock [currentTime]. *)
Definition sjf_clock (currentTime : Z) (process : Process) : Z :=
  Int64.add (max currentTime (ArrivalTime process)) (BurstDuration process).

Definition sjf_row (currentTime : Z) (process : Process) : Row :=
  mkRow (ProcessID process) (Priority process) (BurstDuration process)
        (ArrivalTime process)
        (max 0 (Int64.sub currentTime (ArrivalTime process)))
        (Int64.sub (sjf_clock currentTime process) (ArrivalTime process))
        (sjf_clock currentTime process).

Definition sjf_slice (currentTime : Z) (process : Process) : TimeSlice :=
  mkTimeSlice (ProcessID process)
              (Int64.sub (sjf_clock currentTime process) (BurstDuration process))
              (sjf_clock currentTime process).

Fixpoint sjf_rows (currentTime : Z) (l : list Process) : list Row :=
  match l with
  | [] => []
  | p :: l' => sjf_row currentTime p :: sjf_rows (sjf_clock currentTime p) l'
  end.

Fixpoint sjf_slices (currentTime : Z) (l : list Process) : list TimeSlice :=
  match l with
  | [] => []
  | p :: l' => sjf_slice currentTime p :: sjf_slices (sjf_clock currentTime p) l'
  end.

(** The clock before iteration [i] of the loop over [l]: the clock the
    loop leaves after the first [i] processes. *)
Definition sjf_clock_at (l : list Process) (i : nat) : Z :=
  s_currentTime (sjf_loop (take i l)).

(** Ascending burst durations, position by position. *)
Definition ascending_burst (l : list Process) : Prop :=
  ∀ i j p q, (i <= j)%nat → l !! i = Some p → l !! j = Some q →
             BurstDuration p <= BurstDuration q.

(** ** What a run reports *)

Definition sumZ (l : list Z) : Z := foldr Z.add 0 l.

Definition total_burst (l : list Process) : Z := sumZ (BurstDuration <$> l).

(** The time the process set asks for: arrival times and burst durations
    together. *)
Definition total_demand (l : list Process) : Z :=
  sumZ ((λ p, ArrivalTime p + BurstDuration p) <$> l).

(** A valid process of the specification (section 3). *)
Definition valid_process (p : Process) : Prop :=
  0 <= ArrivalTime p ∧ 0 < BurstDuration p.

(** The process set can be scheduled without leaving [int64]. *)
Definition fits_int64 (l : list Process) : Prop := total_demand l <= Int64.max_int.

Definition segments_of (o : Output) : list TimeSlice :=
  match o with OutGantt gantt => gantt | _ => [] end.

(** The timeline segments handed to the writer. *)
Definition timeline (w : Writer) : list TimeSlice := w ≫= segments_of.

Definition waits_of (o : Output) : list Z :=
  match o with
  | OutSchedule rows _ _ _ => row_waiting <$> omap id rows
  | LogCompleted _ _ waitTime _ => [waitTime]
  | _ => []
  end.

Definition turnarounds_of (o : Output) : list Z :=
  match o with
  | OutSchedule rows _ _ _ => row_turnaround <$> omap id rows
  | LogCompleted _ _ _ turnaroundTime => [turnaroundTime]
  | _ => []
  end.

(** The per-process waiting and turnaround times handed to the writer. *)
Definition reported_waits (w : Writer) : list Z := w ≫= waits_of.
Definition reported_turnarounds (w : Writer) : list Z := w ≫= turnarounds_of.

(** Segments in time order: each starts no earlier than the one before
    stops, from the time [t] on. *)
Fixpoint sequential (t : Z) (tl : list TimeSlice) : Prop :=
  match tl with
  | [] => True
  | s :: tl' => t <= Start s ∧ Start s <= Stop s ∧ sequential (Stop s) tl'
  end.

Definition non_overlapping (tl : list TimeSlice) : Prop :=
  ∀ i j a b, i ≠ j → tl !! i = Some a → tl !! j = Some b →
             Stop a <= Start b ∨ Stop b <= Start a.

Definition covered (tl : list TimeSlice) : Z := sumZ ((λ s, Stop s - Start s) <$> tl).




(** Turnaround is waiting plus burst, row by row. *)
Definition row_balanced (r : Row) : Prop :=
  row_turnaround r = row_waiting r + row_burst r.

(** The burst durations of the processes not yet completed. *)
Fixpoint remaining_burst (l : list Process) : Z :=
  match l with
  | [] => 0
  | p :: l' => (if Completed p then 0 else BurstDuration p) + remaining_burst l'
  end.

Definition is_completion (o : Output) : Prop :=
  match o with LogCompleted _ _ _ _ => True | _ => False end.

(** What the main loop maintains on a valid process set that fits: the
    clock plus the work left stays within the total demand, and the
    completion lines written so far balance turnaround against waiting
    plus the burst durations already run. *)
Definition exact_run (w0 : Writer) (v : psjf_vars) : Prop :=
  counted v ∧ Forall valid_process (p_processes v) ∧
  fits_int64 (p_processes v) ∧
  0 <= p_currentTime v ∧
  p_currentTime v + remaining_burst (p_processes v) <= total_demand (p_processes v) ∧
  ∃ lines,
    p_w v = w0 ++ lines ∧ Forall is_completion lines ∧
    length lines = p_completed v ∧
    sumZ (reported_turnarounds lines)
    = sumZ (reported_waits lines)
      + (total_burst (p_processes v) - remaining_burst (p_processes v)).

(** The input with which the sums of C4 leave [int64]. *)
Definition overflowing_processes : list Process :=
  [ mkProcess "A" 0 9223372036854775807 1 false 0 0 0;
    mkProcess "B" 1 2 2 false 0 0 0 ].


(** The completion lines written so far, one per counted completion. *)
Definition logged (w0 : Writer) (v : psjf_vars) : Prop :=
  ∃ lines, p_w v = w0 ++ lines ∧ Forall is_completion lines ∧
           length lines = p_completed v.

(** ** What C7, C8 and C9 speak of *)

Definition has_timeline (out : Writer) : Prop := ∃ gantt, OutGantt gantt ∈ out.

Definition has_rows (out : Writer) : Prop :=
  (∃ rows a b c, OutSchedule rows a b c ∈ out) ∨
  (∃ pid c wt tt, LogCompleted pid c wt tt ∈ out).

Definition aggregates_of (o : Output) : list Float64.t :=
  match o with
  | OutSchedule _ a b c => [a; b; c]
  | LogAvgWait a | LogAvgTurnaround a | LogThroughput a => [a]
  | _ => []
  end.

(** The aggregates handed to the writer. *)
Definition reported_aggregates (w : Writer) : list Float64.t := w ≫= aggregates_of.

(** A guarded run on empty input: nothing is written (the run is refused),
    or every aggregate written is zero. *)
Definition guarded (produced : Writer) : Prop :=
  produced = [] ∨ Forall (λ a, a = Float64.zero) (reported_aggregates produced).

Definition completions_of (o : Output) : list Z :=
  match o with
  | OutSchedule rows _ _ _ => row_completion <$> omap id rows
  | LogCompleted _ currentTime _ _ => [currentTime]
  | _ => []
  end.

(** The completion times handed to the writer, in order. *)
Definition completion_times (w : Writer) : list Z := w ≫= completions_of.

Definition throughputs_of (o : Output) : list Float64.t :=
  match o with
  | OutSchedule _ _ _ throughput => [throughput]
  | LogThroughput throughput => [throughput]
  | _ => []
  end.

Definition reported_throughput (w : Writer) : option Float64.t :=
  last (w ≫= throughputs_of).

(** What C9 says of the output [produced] for [n] processes. *)
Definition throughput_reported (n : nat) (produced : Writer) : Prop :=
  ∃ c throughput,
    last (completion_times produced) = Some c ∧
    reported_throughput produced = Some throughput ∧
    throughput = Float64.div (Float64.of_int (Z.of_nat n)) (Float64.of_int c) ∧
    (0 < c → Float64.ltb Float64.zero throughput = true).

(** ** The loops, position by position *)

(** The service time and the waiting time [FCFSSchedule] carries from one
    iteration to the next. *)
Definition fcfs_carry (sw : Z * Z) (p : Process) : Z * Z :=
  (Int64.add sw.1 (BurstDuration p), fcfs_wait sw.1 sw.2 p).

(** The service time after the processes [l]: the wrapped sum of their
    burst durations. *)
Definition fcfs_service (l : list Process) : Z :=
  foldl (λ s q, Int64.add s (BurstDuration q)) 0 l.

(** ** The run of [SJFPrioritySchedule], line by line *)

Definition pid_of (o : Output) : list string :=
  match o with LogCompleted pid _ _ _ => [pid] | _ => [] end.

(** The process IDs of the completion lines handed to the writer, in order. *)
Definition completed_in_log (w : Writer) : list string := w ≫= pid_of.

(** The IDs of the processes whose [Completed] flag is set. *)
Fixpoint completed_pids (l : list Process) : list string :=
  match l with
  | [] => []
  | p :: l' => if Completed p then ProcessID p :: completed_pids l' else completed_pids l'
  end.

(** Every completion line written so far is that of a process now flagged,
    and the other way round. *)
Definition once_each (w0 : Writer) (v : psjf_vars) : Prop :=
  ∃ lines, p_w v = w0 ++ lines ∧ completed_in_log lines ≡ₚ completed_pids (p_processes v).

(** [l] is [l0] with some [Completed] flags set and nothing else changed. *)
Definition flags_only (l l0 : list Process) : Prop :=
  Forall2 (λ p q, p = q ∨ p = set_Completed q) l l0.

(** A completion line with a waiting time of at least 0, a longer
    turnaround, and a completion time no earlier than the turnaround. *)
Definition timed_line (o : Output) : Prop :=
  match o with
  | LogCompleted _ currentTime waitTime turnaroundTime =>
      0 <= waitTime ∧ waitTime < turnaroundTime ∧ turnaroundTime <= currentTime
  | _ => False
  end.

(** The run a completion line reports: the process ran for its burst
    duration, turnaround less waiting, up to the completion time. *)
Definition run_of (o : Output) : list TimeSlice :=
  match o with
  | LogCompleted pid currentTime waitTime turnaroundTime =>
      [mkTimeSlice pid (currentTime - (turnaroundTime - waitTime)) currentTime]
  | _ => []
  end.

(** The runs the completion lines handed to the writer report, in order. *)
Definition runs_of_log (w : Writer) : list TimeSlice := w ≫= run_of.

(** The completion lines written so far are timed, their completion times
    go up strictly, and none is later than the clock; the runs they report
    follow one another from time 0 on, and none stops later than the
    clock. *)
Definition in_time_order (w0 : Writer) (v : psjf_vars) : Prop :=
  ∃ lines,
    p_w v = w0 ++ lines ∧ Forall timed_line lines ∧
    StronglySorted Z.lt (completion_times lines) ∧
    Forall (λ c, c <= p_currentTime v) (completion_times lines) ∧
    sequential 0 (runs_of_log lines) ∧
    Forall (λ s, Stop s <= p_currentTime v) (runs_of_log lines).

(** The segment [s] is a run of a process of [l]: it bears its ID, starts no
    earlier than the process arrives and lasts its burst duration. *)
Definition run_of_process (l : list Process) (s : TimeSlice) : Prop :=
  ∃ p, p ∈ l ∧ PID s = ProcessID p ∧ ArrivalTime p <= Start s ∧
       Stop s = Start s + BurstDuration p.

(** The runs reported so far are runs of processes of [l0]. *)
Definition runs_from (l0 : list Process) (w0 : Writer) (v : psjf_vars) : Prop :=
  ∃ lines, p_w v = w0 ++ lines ∧ Forall (run_of_process l0) (runs_of_log lines).

(** Iterations so far, read off the state: completions counted, clock, and
    work left. *)
Definition progress (v : psjf_vars) : Z :=
  Z.of_nat (p_completed v) + p_currentTime v + remaining_burst (p_processes v).

(** ** The report, from what it lists *)

(** Segment [i] and row [i] are those of process [i] of [l]: the process
    IDs, and the priority, burst and arrival columns of the table. *)
Definition one_per_process (l : list Process) (gantt : list TimeSlice)
    (rows : list Row) : Prop :=
  PID <$> gantt = ProcessID <$> l ∧
  row_pid <$> rows = ProcessID <$> l ∧
  row_priority <$> rows = Priority <$> l ∧
  row_burst <$> rows = BurstDuration <$> l ∧
  row_arrival <$> rows = ArrivalTime <$> l.

(** The segment and the row [FCFSSchedule] writes for a process go
    together: the segment starts at waiting time plus arrival time, the
    turnaround is burst plus waiting, the completion time burst plus
    arrival plus waiting. *)
Definition fcfs_consistent (seg : TimeSlice) (r : Row) : Prop :=
  PID seg = row_pid r ∧
  Start seg = Int64.add (row_waiting r) (row_arrival r) ∧
  row_turnaround r = Int64.add (row_burst r) (row_waiting r) ∧
  row_completion r
  = Int64.add (Int64.add (row_burst r) (row_arrival r)) (row_waiting r).

(** The segment and the row [SJFSchedule] writes for a process go together:
    the segment stops at the completion time and starts a burst duration
    before it, the turnaround is completion less arrival. *)
Definition sjf_consistent (seg : TimeSlice) (r : Row) : Prop :=
  PID seg = row_pid r ∧
  Start seg = Int64.sub (row_completion r) (row_burst r) ∧
  Stop seg = row_completion r ∧
  row_turnaround r = Int64.sub (row_completion r) (row_arrival r).

(** The running float total of the integers [l], as the loops build it. *)
Definition float_sum (l : list Z) : Float64.t :=
  foldl (λ acc x, Float64.add acc (Float64.of_int x)) Float64.zero l.

(** The three aggregates of a report on [n] processes, from the waiting
    times, the turnaround times and the completion times it lists: the two
    averages, and the count over the last completion time (over 0 when
    there is none). *)
Definition aggregates_from (n : nat) (waits turnarounds completions : list Z)
    (a b c : Float64.t) : Prop :=
  a = Float64.div (float_sum waits) (Float64.of_int (Z.of_nat n)) ∧
  b = Float64.div (float_sum turnarounds) (Float64.of_int (Z.of_nat n)) ∧
  c = Float64.div (Float64.of_int (Z.of_nat n))
                  (Float64.of_int (default 0 (last completions))).

(** The two float totals of the main loop of [SJFPrioritySchedule] are
    those of the completion lines written so far. *)
Definition totals_logged (w0 : Writer) (v : psjf_vars) : Prop :=
  ∃ lines,
    p_w v = w0 ++ lines ∧
    p_totalWait v = float_sum (reported_waits lines) ∧
    p_totalTurnaround v = float_sum (reported_turnarounds lines).

(** ** Concrete inputs *)

(** The state of the run on [example_processes] after A has run: B and C
    have both arrived. *)
Definition state_after_A : psjf_vars :=
  mkPsjf 5 (Float64.of_int 0) (Float64.of_int 5) 1
         [ mkProcess "A" 0 5 1 true 0 0 0;
           mkProcess "B" 1 3 2 false 0 0 0;
           mkProcess "C" 2 1 3 false 0 0 0 ]
         [LogHeader "PSJF"; LogCompleted "A" 5 0 5].

(** [example_processes] with the flag of B set on entry. *)
Definition precompleted_processes : list Process :=
  [ mkProcess "A" 0 5 1 false 0 0 0;
    mkProcess "B" 1 3 2 true 0 0 0;
    mkProcess "C" 2 1 3 false 0 0 0 ].

(** * Properties *)

(** ** A sorter meeting the contract *)

#[export] Instance not_after_dec {A : Type} (less : A → A → bool) :
  RelDecision (not_after less).
Proof. intros a b. unfold not_after. apply _. Defined.

Section MergeSorter.
Context {A : Type} (less : A → A → bool).

Lemma not_after_total : TransitiveOrdering less → Total (not_after less).
Proof.
  intros O x y. unfold not_after.
  destruct (less y x) eqn:Hyx; [|by left].
  destruct (less x y) eqn:Hxy; [|by right].
  pose proof (less_trans less O _ _ _ Hxy Hyx) as Hxx.
  rewrite (less_irrefl less O) in Hxx. discriminate.
Qed.

Lemma not_after_transitive : TransitiveOrdering less → Transitive (not_after less).
Proof. intros O x y z Hxy Hyz. unfold not_after in *. eapply less_cotrans; eauto. Qed.
End MergeSorter.

#[export] Instance merge_Sorter : Sorter.
Proof.
  refine {| sort_Slice := λ A less l, merge_sort (not_after less) l |}.
  - intros A less l. apply merge_sort_Permutation.
  - intros A less l O.
    apply (@StronglySorted_merge_sort _ _ _ (not_after_transitive less O)
             (not_after_total less O)).
Defined.

(** ** The ready set *)

Lemma elem_of_ready_from (currentTime : Z) (l : list Process) (k : nat)
    (acc : list nat) (i : nat) :
  i ∈ for_range_from k l (available_body currentTime) acc ↔
  i ∈ acc ∨ ∃ j p, i = (k + j)%nat ∧ l !! j = Some p ∧ is_ready currentTime p = true.
Proof.
  revert k acc. induction l as [|x l IH]; intros k acc; simpl.
  - split; [by left|]. intros [?|(j & p & _ & Hj & _)]; [done|]. by destruct j.
  - rewrite IH. unfold available_body. split.
    + intros [Hi|(j & p & -> & Hj & Hp)].
      * destruct (is_ready currentTime x) eqn:Hx; [|by left].
        apply elem_of_app in Hi as [Hi|Hi]; [by left|].
        apply list_elem_of_singleton in Hi as ->.
        right. exists 0%nat, x. split_and!; [lia|done|done].
      * right. exists (S j), p. split_and!; [lia|done|done].
    + intros [Hi|(j & p & -> & Hj & Hp)].
      * left. destruct (is_ready currentTime x); [apply elem_of_app|]; tauto.
      * destruct j as [|j]; simpl in Hj.
        -- injection Hj as ->. rewrite Hp. left. apply elem_of_app. right.
           replace (k + 0)%nat with k by lia. apply list_elem_of_singleton. done.
        -- right. exists j, p. split_and!; [lia|done|done].
Qed.

Lemma elem_of_ready_indices (processes : list Process) (currentTime : Z) (i : nat) :
  i ∈ ready_indices processes currentTime ↔
  ∃ p, processes !! i = Some p ∧ is_ready currentTime p = true.
Proof.
  unfold ready_indices, for_range. rewrite elem_of_ready_from. split.
  - intros [Hi|(j & p & -> & Hj & Hp)]; [by apply elem_of_nil in Hi|]. by exists p.
  - intros (p & Hi & Hp). right. by exists i, p.
Qed.

Lemma is_ready_spec (currentTime : Z) (p : Process) :
  is_ready currentTime p = true ↔ Completed p = false ∧ ArrivalTime p <= currentTime.
Proof.
  unfold is_ready. rewrite andb_true_iff, negb_true_iff, Z.leb_le. done.
Qed.

Ltac bool_to_Z :=
  repeat match goal with
  | H : context [(?a =? ?b)] |- _ => destruct (Z.eqb_spec a b)
  | |- context [(?a =? ?b)] => destruct (Z.eqb_spec a b)
  | H : (_ <? _) = true |- _ => apply Z.ltb_lt in H
  | H : (_ <? _) = false |- _ => apply Z.ltb_ge in H
  | |- (_ <? _) = true => apply Z.ltb_lt
  | |- (_ <? _) = false => apply Z.ltb_ge
  end.

Lemma available_less_ordering (processes : list Process) :
  TransitiveOrdering (available_less processes).
Proof.
  unfold available_less. split.
  - intros x. bool_to_Z; lia.
  - intros x y z Hxy Hyz. bool_to_Z; lia.
  - intros x y z Hxy Hyz. bool_to_Z; lia.
Qed.

Lemma not_after_available_less (processes : list Process) (i j : nat) :
  not_after (available_less processes) i j ↔
  shorter_or_prior (processes !!! i) (processes !!! j).
Proof.
  unfold not_after, available_less, shorter_or_prior. split.
  - intros Hji. bool_to_Z; lia.
  - intros [Hb Hp]. bool_to_Z; lia.
Qed.

Lemma burst_less_ordering : TransitiveOrdering burst_less.
Proof.
  unfold burst_less. split.
  - intros x. bool_to_Z; lia.
  - intros x y z Hxy Hyz. bool_to_Z; lia.
  - intros x y z Hxy Hyz. bool_to_Z; lia.
Qed.

Lemma arrival_less_ordering : TransitiveOrdering arrival_less.
Proof.
  unfold arrival_less. split.
  - intros x. bool_to_Z; lia.
  - intros x y z Hxy Hyz. bool_to_Z; lia.
  - intros x y z Hxy Hyz. bool_to_Z; lia.
Qed.

Section ReadySet.
Context `{Sorter}.

Lemma elem_of_available (processes : list Process) (currentTime : Z) (i : nat) :
  i ∈ available processes currentTime ↔
  ∃ p, processes !! i = Some p ∧ is_ready currentTime p = true.
Proof.
  unfold available. rewrite (sort_Slice_perm _ _). apply elem_of_ready_indices.
Qed.

Lemma available_nil (processes : list Process) (currentTime : Z) :
  available processes currentTime = [] ↔ ready_indices processes currentTime = [].
Proof.
  unfold available. split; intros Hnil.
  - apply Permutation_nil_r. rewrite <- Hnil. symmetry. apply sort_Slice_perm.
  - rewrite Hnil. apply Permutation_nil_r. apply sort_Slice_perm.
Qed.

(** The indices the loop uses are within the slice. *)
Lemma available_lt_length (processes : list Process) (currentTime : Z) (i : nat) :
  i ∈ available processes currentTime → (i < length processes)%nat.
Proof.
  rewrite elem_of_available. intros (p & Hp & _). by eapply lookup_lt_Some.
Qed.

Lemma available_head_min (processes : list Process) (currentTime : Z)
    (idx : nat) (rest : list nat) (j : nat) :
  available processes currentTime = idx :: rest →
  j ∈ available processes currentTime →
  shorter_or_prior (processes !!! idx) (processes !!! j).
Proof.
  intros Hav Hj.
  pose proof (sort_Slice_sorted (available_less processes)
                (ready_indices processes currentTime)
                (available_less_ordering processes)) as Hsorted.
  fold (available processes currentTime) in Hsorted.
  rewrite Hav in Hsorted, Hj.
  apply StronglySorted_inv in Hsorted as [_ Hall].
  apply elem_of_cons in Hj as [->|Hj].
  - unfold shorter_or_prior. lia.
  - apply not_after_available_less. rewrite Forall_forall in Hall. by apply Hall.
Qed.

(** C1. At every iteration of the main loop of [SJFPrioritySchedule] whose
    ready set is not empty, the process that is run (the one whose
    [Completed] flag the iteration sets) has arrived, is not completed, and
    has the least burst duration among the arrived, not completed
    processes; among those of the same burst duration it has the least
    priority value. *)
Theorem selected_has_min_burst (v : psjf_vars) :
  ready_indices (p_processes v) (p_currentTime v) ≠ [] →
  ∃ idx p,
    head (available (p_processes v) (p_currentTime v)) = Some idx ∧
    p_processes v !! idx = Some p ∧
    Completed p = false ∧ ArrivalTime p <= p_currentTime v ∧
    p_processes (psjf_iter v) = alter set_Completed idx (p_processes v) ∧
    ∀ j q, p_processes v !! j = Some q →
           Completed q = false → ArrivalTime q <= p_currentTime v →
           BurstDuration p <= BurstDuration q ∧
           (BurstDuration p = BurstDuration q → Priority p <= Priority q).
Proof.
  intros Hready.
  destruct (available (p_processes v) (p_currentTime v)) as [|idx rest] eqn:Hav.
  { by apply available_nil in Hav. }
  assert (idx ∈ available (p_processes v) (p_currentTime v)) as Hidx
    by (rewrite Hav; apply elem_of_cons; by left).
  apply elem_of_available in Hidx as (p & Hp & Hrdy).
  apply is_ready_spec in Hrdy as [Hc Ha].
  exists idx, p. split_and!; try done.
  - unfold psjf_iter. by rewrite Hav.
  - intros j q Hq Hqc Hqa.
    assert (j ∈ available (p_processes v) (p_currentTime v)) as Hj.
    { apply elem_of_available. exists q. split; [done|]. by apply is_ready_spec. }
    pose proof (available_head_min _ _ _ _ _ Hav Hj) as Hmin.
    by rewrite (list_lookup_total_correct _ _ _ Hp),
               (list_lookup_total_correct _ _ _ Hq) in Hmin.
Qed.

End ReadySet.

(** ** Machine arithmetic *)

Lemma wrap_in_range (z : Z) : Int64.in_range (Int64.wrap z).
Proof.
  unfold Int64.in_range, Int64.wrap, Int64.min_int, Int64.max_int, Int64.modulus.
  pose proof (Z.mod_pos_bound (z + 2 ^ 63) (2 ^ 64)). lia.
Qed.

Lemma wrap_exact (z : Z) : Int64.in_range z → Int64.wrap z = z.
Proof.
  unfold Int64.in_range, Int64.wrap, Int64.min_int, Int64.max_int, Int64.modulus.
  intros Hz. rewrite Z.mod_small; lia.
Qed.

Lemma add_exact (a b : Z) : Int64.in_range (a + b) → Int64.add a b = a + b.
Proof. apply wrap_exact. Qed.

Lemma sub_exact (a b : Z) : Int64.in_range (a - b) → Int64.sub a b = a - b.
Proof. apply wrap_exact. Qed.

Lemma max_spec (a b : Z) : max a b = Z.max a b.
Proof. unfold max. destruct (Z.gtb_spec a b); lia. Qed.

(** ** Counting completed processes *)

Lemma count_completed_le (l : list Process) : (count_completed l <= length l)%nat.
Proof. induction l as [|p l IH]; simpl; [lia|]. destruct (Completed p); lia. Qed.

Lemma count_completed_perm (l1 l2 : list Process) :
  l1 ≡ₚ l2 → count_completed l1 = count_completed l2.
Proof. induction 1; simpl; lia. Qed.

Lemma count_completed_alter (l : list Process) (i : nat) (p : Process) :
  l !! i = Some p → Completed p = false →
  count_completed (alter set_Completed i l) = S (count_completed l).
Proof.
  revert i. induction l as [|x l IH]; intros [|i] Hi Hp; simpl in *; try done.
  - injection Hi as ->. rewrite Hp. done.
  - specialize (IH i Hi Hp). unfold alter in IH. rewrite IH. lia.
Qed.

Lemma count_completed_zero (l : list Process) :
  Forall (λ p, Completed p = false) l → count_completed l = 0%nat.
Proof. induction 1 as [|p l Hp _ IH]; simpl; [done|]. by rewrite Hp, IH. Qed.

Lemma count_completed_full (l : list Process) :
  count_completed l = length l → Forall (λ p, Completed p = true) l.
Proof.
  induction l as [|p l IH]; simpl; intros Hc; [constructor|].
  pose proof (count_completed_le l). destruct (Completed p) eqn:Hp; [|lia].
  constructor; [done|]. apply IH. lia.
Qed.

Lemma count_completed_pos (l : list Process) (p : Process) :
  p ∈ l → Completed p = true → (0 < count_completed l)%nat.
Proof.
  intros Hin Hp. induction l as [|x l IH]; [by apply elem_of_nil in Hin|].
  simpl. apply elem_of_cons in Hin as [<-|Hin].
  - rewrite Hp. lia.
  - specialize (IH Hin). lia.
Qed.

Lemma exists_not_completed (l : list Process) :
  (count_completed l < length l)%nat →
  ∃ j q, l !! j = Some q ∧ Completed q = false.
Proof.
  induction l as [|p l IH]; simpl; [lia|]. intros Hlt.
  destruct (Completed p) eqn:Hp.
  - destruct IH as (j & q & Hj & Hq); [lia|]. by exists (S j), q.
  - by exists 0%nat, p.
Qed.

(** ** One iteration of the main loop *)

Section MainLoop.
Context `{Sorter}.

Lemma psjf_iter_idle (v : psjf_vars) :
  ready_indices (p_processes v) (p_currentTime v) = [] → psjf_iter v = psjf_tick v.
Proof. intros Hnil. apply available_nil in Hnil. unfold psjf_iter. by rewrite Hnil. Qed.

Lemma psjf_iter_busy (v : psjf_vars) :
  ready_indices (p_processes v) (p_currentTime v) ≠ [] →
  ∃ idx p,
    p_processes v !! idx = Some p ∧ Completed p = false ∧
    ArrivalTime p <= p_currentTime v ∧ psjf_iter v = psjf_run v idx p.
Proof.
  intros Hready.
  destruct (available (p_processes v) (p_currentTime v)) as [|idx rest] eqn:Hav.
  { by apply available_nil in Hav. }
  assert (idx ∈ available (p_processes v) (p_currentTime v)) as Hidx
    by (rewrite Hav; apply elem_of_cons; by left).
  apply elem_of_available in Hidx as (p & Hp & Hrdy).
  apply is_ready_spec in Hrdy as [Hc Ha].
  exists idx, p. split_and!; try done.
  unfold psjf_iter, psjf_run, Fprintf. rewrite Hav.
  by rewrite (list_lookup_total_correct _ _ _ Hp).
Qed.

Lemma psjf_loop_exit (fuel : nat) (v : psjf_vars) :
  (length (p_processes v) <= p_completed v)%nat → psjf_loop fuel v = Some v.
Proof.
  intros Hge. destruct fuel; simpl;
    by destruct (Nat.ltb_spec (p_completed v) (length (p_processes v))); [lia|].
Qed.

Lemma psjf_loop_step (fuel : nat) (v : psjf_vars) :
  (p_completed v < length (p_processes v))%nat →
  psjf_loop (S fuel) v = psjf_loop fuel (psjf_iter v).
Proof.
  intros Hlt. simpl.
  by destruct (Nat.ltb_spec (p_completed v) (length (p_processes v))); [|lia].
Qed.

(** Induction over the iterations of a run that leaves the loop. *)
Lemma psjf_loop_invariant (P : psjf_vars → Prop) (fuel : nat) (v v' : psjf_vars) :
  (∀ u, P u → (p_completed u < length (p_processes u))%nat → P (psjf_iter u)) →
  P v → psjf_loop fuel v = Some v' →
  P v' ∧ (length (p_processes v') <= p_completed v')%nat.
Proof.
  intros Hstep. revert v. induction fuel as [|fuel IH]; intros v Hv Hrun; simpl in Hrun.
  - destruct (Nat.ltb_spec (p_completed v) (length (p_processes v))); [done|].
    injection Hrun as <-. done.
  - destruct (Nat.ltb_spec (p_completed v) (length (p_processes v))).
    + apply (IH (psjf_iter v)); [by apply Hstep|done].
    + injection Hrun as <-. done.
Qed.

End MainLoop.

(** ** Termination of the main loop *)

Section Iterations.
Context `{Sorter}.

Lemma psjf_nth_add (a b : nat) (v : psjf_vars) :
  psjf_nth (a + b) v = psjf_nth b (psjf_nth a v).
Proof. revert v. induction a as [|a IH]; intros v; simpl; [done|]. apply IH. Qed.

Lemma psjf_nth_S (k : nat) (v : psjf_vars) :
  psjf_nth (S k) v = psjf_iter (psjf_nth k v).
Proof. replace (S k) with (k + 1)%nat by lia. by rewrite psjf_nth_add. Qed.

Lemma psjf_loop_nth (n fuel : nat) (v : psjf_vars) :
  (∀ k, (k < n)%nat → loop_cond (psjf_nth k v)) →
  psjf_loop (n + fuel) v = psjf_loop fuel (psjf_nth n v).
Proof.
  revert v. induction n as [|n IH]; intros v Hcond; [done|].
  replace (S n + fuel)%nat with (S (n + fuel)) by lia.
  rewrite psjf_loop_step by (apply (Hcond 0%nat); lia).
  simpl. apply IH. intros k Hk. apply (Hcond (S k)). lia.
Qed.

Lemma arrival_typed_alter (l : list Process) (idx : nat) :
  Forall arrival_typed l → Forall arrival_typed (alter set_Completed idx l).
Proof.
  intros Hl. apply Forall_alter; [done|]. intros p _ Hp. exact Hp.
Qed.

Lemma counted_iter (v : psjf_vars) : counted v → counted (psjf_iter v).
Proof.
  intros (Hcur & Hwt & Hcnt).
  destruct (decide (ready_indices (p_processes v) (p_currentTime v) = [])) as [Hnil|Hne].
  - rewrite (psjf_iter_idle v Hnil). split_and!; simpl; try done. apply wrap_in_range.
  - destruct (psjf_iter_busy v Hne) as (idx & p & Hp & Hc & Ha & ->).
    split_and!; simpl.
    + apply wrap_in_range.
    + by apply arrival_typed_alter.
    + by rewrite (count_completed_alter _ _ _ Hp Hc), Hcnt.
Qed.

Lemma counted_nth (k : nat) (v : psjf_vars) : counted v → counted (psjf_nth k v).
Proof.
  revert v. induction k as [|k IH]; intros v Hv; simpl; [done|].
  apply IH. by apply counted_iter.
Qed.

(** With an unfinished process left and nothing ready, the clock is below
    that process's arrival time, so the tick does not wrap. *)
Lemma idle_tick_exact (v : psjf_vars) :
  counted v → loop_cond v →
  ready_indices (p_processes v) (p_currentTime v) = [] →
  psjf_iter v = tick_exact v.
Proof.
  intros (Hcur & Hwt & Hcnt) Hcond Hnil.
  rewrite (psjf_iter_idle v Hnil). unfold psjf_tick, tick_exact. f_equal.
  unfold loop_cond in Hcond. rewrite Hcnt in Hcond.
  destruct (exists_not_completed _ Hcond) as (j & q & Hq & Hqc).
  assert (p_currentTime v < ArrivalTime q) as Hlt.
  { destruct (Z.lt_ge_cases (p_currentTime v) (ArrivalTime q)) as [|Hge]; [done|].
    assert (j ∈ ready_indices (p_processes v) (p_currentTime v)) as Hin.
    { apply elem_of_ready_indices. exists q. split; [done|].
      apply is_ready_spec. split; [done|lia]. }
    rewrite Hnil in Hin. by apply elem_of_nil in Hin. }
  rewrite Forall_forall in Hwt.
  destruct (Hwt q (list_elem_of_lookup_2 _ _ _ Hq)) as (_ & Hmax).
  apply add_exact. unfold Int64.in_range in *. lia.
Qed.

(** Idle ticking reaches an iteration with a non-empty ready set. *)
Lemma idle_ticks_admit (d : nat) (v : psjf_vars) (j : nat) (q : Process) :
  counted v → loop_cond v →
  p_processes v !! j = Some q → Completed q = false →
  ArrivalTime q - p_currentTime v <= Z.of_nat d →
  ∃ m,
    ready_indices (p_processes (psjf_nth m v)) (p_currentTime (psjf_nth m v)) ≠ [] ∧
    (∀ k, (k <= m)%nat →
       p_processes (psjf_nth k v) = p_processes v ∧
       p_completed (psjf_nth k v) = p_completed v).
Proof.
  revert v. induction d as [|d IH]; intros v Hv Hcond Hq Hqc Hd.
  - exists 0%nat. simpl. split.
    + intros Hnil.
      assert (j ∈ ready_indices (p_processes v) (p_currentTime v)) as Hin.
      { apply elem_of_ready_indices. exists q. split; [done|].
        apply is_ready_spec. split; [done|lia]. }
      rewrite Hnil in Hin. by apply elem_of_nil in Hin.
    + intros k Hk. by replace k with 0%nat by lia.
  - destruct (decide (ready_indices (p_processes v) (p_currentTime v) = []))
      as [Hnil|Hne].
    + pose proof (idle_tick_exact v Hv Hcond Hnil) as Hit.
      destruct (IH (psjf_iter v)) as (m & Hm & Hsame).
      * by apply counted_iter.
      * rewrite Hit. exact Hcond.
      * rewrite Hit. exact Hq.
      * done.
      * rewrite Hit. simpl. lia.
      * exists (S m). split; [exact Hm|].
        intros [|k] Hk; [done|]. simpl.
        destruct (Hsame k) as [-> ->]; [lia|]. by rewrite Hit.
    + exists 0%nat. split; [done|]. intros k Hk. by replace k with 0%nat by lia.
Qed.

(** The loop is left after finitely many iterations. *)
Lemma psjf_iterations (r : nat) (v : psjf_vars) :
  counted v → (length (p_processes v) - p_completed v = r)%nat →
  ∃ n, (∀ k, (k < n)%nat → loop_cond (psjf_nth k v)) ∧ ¬ loop_cond (psjf_nth n v).
Proof.
  revert v. induction r as [|r IH]; intros v Hv Hr.
  - exists 0%nat. split; [lia|]. unfold loop_cond. simpl. lia.
  - assert (loop_cond v) as Hcond by (unfold loop_cond; lia).
    pose proof Hv as (Hcur & Hwt & Hcnt).
    unfold loop_cond in Hcond. rewrite Hcnt in Hcond.
    destruct (exists_not_completed _ Hcond) as (j & q & Hq & Hqc).
    rewrite <- Hcnt in Hcond.
    destruct (idle_ticks_admit (Z.to_nat (ArrivalTime q - p_currentTime v)) v j q)
      as (m & Hm & Hsame); [done|done|done|done|lia|].
    destruct (psjf_iter_busy _ Hm) as (idx & p & Hp & Hpc & Hpa & Hrun).
    destruct (Hsame m) as [Hprocs Hcompl]; [lia|].
    destruct (IH (psjf_nth (S m) v)) as (n & Hn & Hexit).
    { apply counted_nth, Hv. }
    { rewrite psjf_nth_S, Hrun. simpl. rewrite length_alter, Hprocs, Hcompl. lia. }
    exists (S m + n)%nat. split.
    + intros k Hk. destruct (decide (k <= m)%nat) as [Hle|Hgt].
      * unfold loop_cond. destruct (Hsame k Hle) as [-> ->]. exact Hcond.
      * replace k with (S m + (k - S m))%nat by lia. rewrite psjf_nth_add.
        apply Hn. lia.
    + by rewrite psjf_nth_add.
Qed.

Lemma psjf_loop_returns (v : psjf_vars) :
  counted v →
  ∃ n, psjf_loop n v = Some (psjf_nth n v) ∧
       (∀ k, (k < n)%nat → loop_cond (psjf_nth k v)) ∧
       ¬ loop_cond (psjf_nth n v).
Proof.
  intros Hv.
  destruct (psjf_iterations _ v Hv eq_refl) as (n & Hn & Hexit).
  exists n. split_and!; [|done|done].
  replace n with (n + 0)%nat at 1 by lia. rewrite (psjf_loop_nth n 0 v Hn).
  apply psjf_loop_exit. unfold loop_cond in Hexit. lia.
Qed.

End Iterations.

Section Termination.
Context `{Sorter}.

Lemma psjf_iter_length (v : psjf_vars) :
  length (p_processes (psjf_iter v)) = length (p_processes v).
Proof.
  destruct (decide (ready_indices (p_processes v) (p_currentTime v) = [])) as [Hnil|Hne].
  - by rewrite (psjf_iter_idle v Hnil).
  - destruct (psjf_iter_busy v Hne) as (idx & p & _ & _ & _ & ->). simpl.
    apply length_alter.
Qed.

Lemma psjf_nth_length (k : nat) (v : psjf_vars) :
  length (p_processes (psjf_nth k v)) = length (p_processes v).
Proof.
  revert v. induction k as [|k IH]; intros v; simpl; [done|].
  by rewrite IH, psjf_iter_length.
Qed.

Lemma psjf_start_counted (w : Writer) (title : string) (processes : list Process) :
  Forall arrival_typed processes →
  Forall (λ p, Completed p = false) processes →
  counted (psjf_start w title processes).
Proof.
  intros Hwt Hfalse. unfold counted, psjf_start. simpl. split_and!.
  - unfold Int64.in_range, Int64.min_int, Int64.max_int. lia.
  - by rewrite (sort_Slice_perm arrival_less processes).
  - rewrite (count_completed_perm _ _ (sort_Slice_perm arrival_less processes)).
    symmetry. by apply count_completed_zero.
Qed.


(** The counter stays behind the number of set flags when a flag was set on
    entry. *)
Lemma lagging_iter (v : psjf_vars) :
  (p_completed v < count_completed (p_processes v))%nat →
  (p_completed (psjf_iter v) < count_completed (p_processes (psjf_iter v)))%nat.
Proof.
  intros Hlag.
  destruct (decide (ready_indices (p_processes v) (p_currentTime v) = [])) as [Hnil|Hne].
  - by rewrite (psjf_iter_idle v Hnil).
  - destruct (psjf_iter_busy v Hne) as (idx & p & Hp & Hc & _ & ->). simpl.
    rewrite (count_completed_alter _ _ _ Hp Hc). lia.
Qed.

Lemma lagging_nth (k : nat) (v : psjf_vars) :
  (p_completed v < count_completed (p_processes v))%nat →
  (p_completed (psjf_nth k v) < count_completed (p_processes (psjf_nth k v)))%nat.
Proof.
  revert v. induction k as [|k IH]; intros v Hlag; simpl; [done|].
  apply IH. by apply lagging_iter.
Qed.

Lemma lagging_loop (fuel : nat) (v : psjf_vars) :
  (p_completed v < count_completed (p_processes v))%nat → psjf_loop fuel v = None.
Proof.
  revert v. induction fuel as [|fuel IH]; intros v Hlag;
    pose proof (count_completed_le (p_processes v)) as Hle; simpl;
    destruct (Nat.ltb_spec (p_completed v) (length (p_processes v))); try lia.
  - done.
  - apply IH. by apply lagging_iter.
Qed.

(** C10. When some process enters [SJFPrioritySchedule] with its [Completed]
    flag set, the counter is below the number of processes after any number
    of iterations, and the function does not return whatever bound is put on
    the number of iterations. *)
Theorem precompleted_never_terminates (w : Writer) (title : string)
    (processes : list Process) (p : Process) :
  p ∈ processes → Completed p = true →
  (∀ k, loop_cond (psjf_nth k (psjf_start w title processes))) ∧
  (∀ fuel, SJFPrioritySchedule fuel w title processes = None).
Proof.
  intros Hin Hp.
  assert (p_completed (psjf_start w title processes)
          < count_completed (p_processes (psjf_start w title processes)))%nat as Hlag.
  { unfold psjf_start. simpl.
    rewrite (count_completed_perm _ _ (sort_Slice_perm arrival_less processes)).
    by eapply count_completed_pos. }
  split.
  - intros k. unfold loop_cond.
    pose proof (lagging_nth k _ Hlag).
    pose proof (count_completed_le (p_processes (psjf_nth k (psjf_start w title processes)))).
    lia.
  - intros fuel. unfold SJFPrioritySchedule. by rewrite (lagging_loop fuel _ Hlag).
Qed.

End Termination.

(** ** The loop of [FCFSSchedule], process by process *)

Lemma insert_fill {A : Type} (filled : list A) (y d : A) (m : nat) :
  <[length filled := y]> (filled ++ replicate (S m) d)
  = (filled ++ [y]) ++ replicate m d.
Proof.
  rewrite insert_app_r_alt by lia. rewrite Nat.sub_diag. simpl.
  by rewrite <- app_assoc.
Qed.

Lemma last_completion_cons (start : Float64.t) (r : Row) (rows : list Row) :
  last_completion start (r :: rows)
  = last_completion (Float64.of_int (row_completion r)) rows.
Proof.
  unfold last_completion. rewrite last_cons. by destruct (last rows).
Qed.

Lemma fcfs_from (l : list Process) (k m : nat) (v : fcfs_vars)
    (filled : list (option Row)) :
  f_schedule v = filled ++ replicate (length l + m) None →
  length filled = k →
  let rows := fcfs_rows (f_serviceTime v) (f_waitingTime v) l in
  let v' := for_range_from k l fcfs_body v in
  f_schedule v' = filled ++ (Some <$> rows) ++ replicate m None ∧
  f_gantt v' = f_gantt v ++ fcfs_slices (f_serviceTime v) (f_waitingTime v) l ∧
  f_totalWait v' = total_of row_waiting (f_totalWait v) rows ∧
  f_totalTurnaround v' = total_of row_turnaround (f_totalTurnaround v) rows ∧
  f_lastCompletion v' = last_completion (f_lastCompletion v) rows.
Proof.
  revert k v filled. induction l as [|p l IH]; intros k v filled Hsched Hk; simpl.
  - rewrite app_nil_r. split_and!; done.
  - simpl in Hsched.
    destruct (IH (S k) (fcfs_body k p v) (filled ++ [Some (fcfs_row (f_serviceTime v) (f_waitingTime v) p)]))
      as (Hs & Hg & Hw & Ht & Hc).
    { simpl. rewrite Hsched, <- Hk. apply insert_fill. }
    { rewrite length_app. simpl. lia. }
    simpl in Hs, Hg, Hw, Ht, Hc.
    fold (fcfs_wait (f_serviceTime v) (f_waitingTime v) p) in Hs, Hg, Hw, Ht, Hc.
    rewrite last_completion_cons.
    split_and!; [|by rewrite Hg, <- app_assoc|done|done|done].
    by rewrite Hs, <- app_assoc.
Qed.

Lemma fcfs_loop_spec (processes : list Process) :
  let rows := fcfs_rows 0 0 processes in
  f_schedule (fcfs_loop processes) = Some <$> rows ∧
  f_gantt (fcfs_loop processes) = fcfs_slices 0 0 processes ∧
  f_totalWait (fcfs_loop processes) = total_of row_waiting Float64.zero rows ∧
  f_totalTurnaround (fcfs_loop processes) = total_of row_turnaround Float64.zero rows ∧
  f_lastCompletion (fcfs_loop processes) = last_completion Float64.zero rows.
Proof.
  unfold fcfs_loop, for_range.
  destruct (fcfs_from processes 0 0 (fcfs_init (length processes)) []) as (Hs & Hg & Hw & Ht & Hc).
  { simpl. by rewrite Nat.add_0_r. }
  { done. }
  simpl in *. rewrite app_nil_r in Hs. done.
Qed.

Lemma fcfs_rows_length (s w : Z) (l : list Process) :
  length (fcfs_rows s w l) = length l.
Proof. revert s w. induction l as [|p l IH]; intros s w; simpl; [done|]. by rewrite IH. Qed.

Lemma fcfs_slices_length (s w : Z) (l : list Process) :
  length (fcfs_slices s w l) = length l.
Proof. revert s w. induction l as [|p l IH]; intros s w; simpl; [done|]. by rewrite IH. Qed.

(** C2, at the input [late_process]: the process arrives at 5 with the
    service time at 0; the claim gives the waiting time [max(0, 0 - 5) = 0],
    the code computes [0 - 5 = -5] (and a turnaround of -2). *)
Theorem fcfs_waiting_not_clamped :
  f_schedule (fcfs_loop late_process) = [Some (mkRow "A" 1 3 5 (-5) (-2) 3)] ∧
  f_gantt (fcfs_loop late_process) = [mkTimeSlice "A" 0 3] ∧
  max 0 (Int64.sub 0 5) = 0.
Proof. split_and!; reflexivity. Qed.

(** What [FCFSSchedule] computes for every process: with a positive arrival
    time the waiting time is the wrapped difference, without the clamp at 0;
    otherwise the waiting time of the process before is kept (0 for the
    first process).  The service time is the wrapped sum of the burst
    durations before. *)
Lemma fcfs_waiting_rule (s w : Z) (p : Process) (l : list Process) :
  fcfs_rows s w (p :: l)
  = fcfs_row s w p :: fcfs_rows (Int64.add s (BurstDuration p)) (row_waiting (fcfs_row s w p)) l
  ∧ (ArrivalTime p > 0 → row_waiting (fcfs_row s w p) = Int64.sub s (ArrivalTime p))
  ∧ (ArrivalTime p <= 0 → row_waiting (fcfs_row s w p) = w).
Proof.
  split_and!; [done| |]; intros Ha; simpl; unfold fcfs_wait;
    destruct (Z.gtb_spec (ArrivalTime p) 0); (done || lia).
Qed.

(** ** The loop of [SJFSchedule], process by process *)

Lemma sjf_from (l : list Process) (k m : nat) (v : sjf_vars)
    (filled : list (option Row)) (drawn : list TimeSlice) :
  s_schedule v = filled ++ replicate (length l + m) None →
  s_gantt v = drawn ++ replicate (length l + m) zero_TimeSlice →
  length filled = k → length drawn = k →
  let rows := sjf_rows (s_currentTime v) l in
  let v' := for_range_from k l sjf_body v in
  s_schedule v' = filled ++ (Some <$> rows) ++ replicate m None ∧
  s_gantt v' = drawn ++ sjf_slices (s_currentTime v) l ++ replicate m zero_TimeSlice ∧
  s_currentTime v' = foldl sjf_clock (s_currentTime v) l ∧
  s_totalWait v' = total_of row_waiting (s_totalWait v) rows ∧
  s_totalTurnaround v' = total_of row_turnaround (s_totalTurnaround v) rows.
Proof.
  revert k v filled drawn.
  induction l as [|p l IH]; intros k v filled drawn Hsched Hgantt Hk Hk'; simpl.
  - split_and!; done.
  - simpl in Hsched, Hgantt.
    destruct (IH (S k) (sjf_body k p v)
                (filled ++ [Some (sjf_row (s_currentTime v) p)])
                (drawn ++ [sjf_slice (s_currentTime v) p]))
      as (Hs & Hg & Hc & Hw & Ht).
    { simpl. rewrite Hsched, <- Hk. apply insert_fill. }
    { simpl. rewrite Hgantt, <- Hk'. apply insert_fill. }
    { rewrite length_app. simpl. lia. }
    { rewrite length_app. simpl. lia. }
    simpl in Hs, Hg, Hc, Hw, Ht.
    fold (sjf_clock (s_currentTime v) p) in Hs, Hg, Hc, Hw, Ht.
    split_and!; [| |done|done|done].
    + by rewrite Hs, <- app_assoc.
    + by rewrite Hg, <- app_assoc.
Qed.

Lemma sjf_loop_spec (processes : list Process) :
  let rows := sjf_rows 0 processes in
  s_schedule (sjf_loop processes) = Some <$> rows ∧
  s_gantt (sjf_loop processes) = sjf_slices 0 processes ∧
  s_currentTime (sjf_loop processes) = foldl sjf_clock 0 processes ∧
  s_totalWait (sjf_loop processes) = total_of row_waiting Float64.zero rows ∧
  s_totalTurnaround (sjf_loop processes) = total_of row_turnaround Float64.zero rows.
Proof.
  unfold sjf_loop, for_range.
  destruct (sjf_from processes 0 0 (sjf_init (length processes)) [] [])
    as (Hs & Hg & Hc & Hw & Ht); simpl; try (by rewrite Nat.add_0_r); try done.
  simpl in *. rewrite app_nil_r in Hs, Hg. done.
Qed.

Lemma sjf_rows_length (c : Z) (l : list Process) : length (sjf_rows c l) = length l.
Proof. revert c. induction l as [|p l IH]; intros c; simpl; [done|]. by rewrite IH. Qed.

Lemma sjf_slices_length (c : Z) (l : list Process) : length (sjf_slices c l) = length l.
Proof. revert c. induction l as [|p l IH]; intros c; simpl; [done|]. by rewrite IH. Qed.

Lemma sjf_rows_lookup (c : Z) (l : list Process) (i : nat) (p : Process) :
  l !! i = Some p →
  sjf_rows c l !! i = Some (sjf_row (foldl sjf_clock c (take i l)) p).
Proof.
  revert c i. induction l as [|x l IH]; intros c [|i] Hi; simpl in *; try done.
  - by injection Hi as ->.
  - by apply IH.
Qed.

Lemma sjf_clock_at_spec (l : list Process) (i : nat) :
  sjf_clock_at l i = foldl sjf_clock 0 (take i l).
Proof. unfold sjf_clock_at. by destruct (sjf_loop_spec (take i l)) as (_ & _ & -> & _). Qed.

Lemma sjf_clock_at_S (l : list Process) (i : nat) (p : Process) :
  l !! i = Some p → sjf_clock_at l (S i) = sjf_clock (sjf_clock_at l i) p.
Proof.
  intros Hi. rewrite !sjf_clock_at_spec, (take_S_r _ _ _ Hi), foldl_app. done.
Qed.

Lemma StronglySorted_lookup {A : Type} (R : relation A) (l : list A) (i j : nat) (x y : A) :
  StronglySorted R l → (i < j)%nat → l !! i = Some x → l !! j = Some y → R x y.
Proof.
  intros Hs. revert i j. induction Hs as [|a l Hs IH Hall]; intros i j Hij Hi Hj.
  - by rewrite lookup_nil in Hi.
  - destruct j as [|j]; [lia|]. destruct i as [|i]; simpl in *.
    + injection Hi as ->. rewrite Forall_forall in Hall. apply Hall.
      by eapply list_elem_of_lookup_2.
    + apply (IH i j); [lia|done|done].
Qed.

Section ShortestJobFirst.
Context `{Sorter}.

Lemma sorted_by_burst (processes : list Process) :
  ascending_burst (sort_Slice burst_less processes).
Proof.
  intros i j p q Hij Hi Hj.
  destruct (decide (i = j)) as [->|Hne].
  - rewrite Hi in Hj. injection Hj as ->. lia.
  - pose proof (StronglySorted_lookup _ _ i j p q
        (sort_Slice_sorted burst_less processes burst_less_ordering)
        ltac:(lia) Hi Hj) as Hpq.
    unfold not_after, burst_less in Hpq. by apply Z.ltb_ge in Hpq.
Qed.

Lemma SJFSchedule_spec (w : Writer) (title : string) (processes : list Process) :
  let sorted := sort_Slice burst_less processes in
  let count := Float64.of_int (Z.of_nat (length sorted)) in
  SJFSchedule w title processes =
  (w ++ [OutTitle title; OutGantt (sjf_slices 0 sorted);
         OutSchedule (Some <$> sjf_rows 0 sorted)
           (Float64.div (total_of row_waiting Float64.zero (sjf_rows 0 sorted)) count)
           (Float64.div (total_of row_turnaround Float64.zero (sjf_rows 0 sorted)) count)
           (Float64.div count (Float64.of_int (foldl sjf_clock 0 sorted)))],
   sorted).
Proof.
  unfold SJFSchedule, outputSchedule, outputGantt, outputTitle.
  destruct (sjf_loop_spec (sort_Slice burst_less processes)) as (-> & -> & -> & -> & ->).
  by rewrite <- !app_assoc.
Qed.

End ShortestJobFirst.

(** ** Sums and timelines *)

Lemma sumZ_app (l1 l2 : list Z) : sumZ (l1 ++ l2) = sumZ l1 + sumZ l2.
Proof. induction l1 as [|x l1 IH]; simpl; [done|]. rewrite IH. lia. Qed.

Lemma sumZ_perm (l1 l2 : list Z) : l1 ≡ₚ l2 → sumZ l1 = sumZ l2.
Proof. induction 1; simpl; lia. Qed.

Lemma total_burst_perm (l1 l2 : list Process) : l1 ≡ₚ l2 → total_burst l1 = total_burst l2.
Proof. intros Hp. unfold total_burst. apply sumZ_perm. by rewrite Hp. Qed.

Lemma total_demand_perm (l1 l2 : list Process) : l1 ≡ₚ l2 → total_demand l1 = total_demand l2.
Proof. intros Hp. unfold total_demand. apply sumZ_perm. by rewrite Hp. Qed.

Lemma sequential_later (t : Z) (tl : list TimeSlice) :
  sequential t tl → Forall (λ s, t <= Start s) tl.
Proof.
  revert t. induction tl as [|s tl IH]; intros t; simpl; [constructor|].
  intros (Ht & Hs & Hseq). constructor; [done|].
  eapply Forall_impl; [apply (IH _ Hseq)|]. simpl. intros; lia.
Qed.

Lemma sequential_non_overlapping (t : Z) (tl : list TimeSlice) :
  sequential t tl → non_overlapping tl.
Proof.
  revert t. induction tl as [|s tl IH]; intros t Hseq i j a b Hij Hi Hj.
  - by rewrite lookup_nil in Hi.
  - simpl in Hseq. destruct Hseq as (Ht & Hs & Hseq).
    pose proof (sequential_later _ _ Hseq) as Hlater. rewrite Forall_forall in Hlater.
    destruct i as [|i], j as [|j]; simpl in *; try done.
    + injection Hi as ->. left. apply Hlater. by eapply list_elem_of_lookup_2.
    + injection Hj as ->. right. apply Hlater. by eapply list_elem_of_lookup_2.
    + apply (IH _ Hseq i j); [lia|done|done].
Qed.

Lemma wrap_add_wrap (x y : Z) : Int64.wrap (Int64.wrap x + y) = Int64.wrap (x + y).
Proof.
  unfold Int64.wrap, Int64.modulus.
  replace ((x + 2 ^ 63) mod 2 ^ 64 - 2 ^ 63 + y + 2 ^ 63)
    with ((x + 2 ^ 63) mod 2 ^ 64 + y) by lia.
  rewrite Zplus_mod_idemp_l. f_equal. f_equal. lia.
Qed.

(** With a positive arrival time the segment of [FCFSSchedule] starts at the
    service time, whatever the waiting time is. *)
Lemma fcfs_start_service (s w : Z) (p : Process) :
  Int64.in_range s → ArrivalTime p > 0 → Start (fcfs_slice s w p) = s.
Proof.
  intros Hs Ha. simpl. unfold fcfs_wait.
  destruct (Z.gtb_spec (ArrivalTime p) 0); [|lia].
  unfold Int64.add, Int64.sub. rewrite wrap_add_wrap.
  replace (s - ArrivalTime p + ArrivalTime p) with s by lia. by apply wrap_exact.
Qed.

Ltac in_range_lia :=
  unfold fits_int64 in *;
  unfold Int64.in_range, Int64.min_int, Int64.max_int in *; lia.

Lemma total_demand_cons (p : Process) (l : list Process) :
  total_demand (p :: l) = ArrivalTime p + BurstDuration p + total_demand l.
Proof. done. Qed.

Lemma total_burst_cons (p : Process) (l : list Process) :
  total_burst (p :: l) = BurstDuration p + total_burst l.
Proof. done. Qed.

Lemma total_demand_ge_burst (l : list Process) :
  Forall valid_process l → 0 <= total_burst l <= total_demand l.
Proof.
  induction 1 as [|p l (Ha & Hb) _ IH]; [done|].
  rewrite total_demand_cons, total_burst_cons. lia.
Qed.



Lemma balanced_sum (rows : list Row) :
  Forall row_balanced rows →
  sumZ (row_turnaround <$> rows)
  = sumZ (row_waiting <$> rows) + sumZ (row_burst <$> rows).
Proof.
  induction 1 as [|r rows Hr _ IH]; [done|].
  cbn [fmap list_fmap sumZ foldr]. unfold sumZ in IH. unfold row_balanced in Hr.
  change (list_fmap Row Z ?f ?l) with (f <$> l). lia.
Qed.

Lemma fcfs_rows_balanced (l : list Process) (s w : Z) :
  0 <= s → - Int64.max_int <= w <= s → Forall valid_process l →
  s + total_demand l <= Int64.max_int →
  Forall row_balanced (fcfs_rows s w l) ∧
  row_burst <$> fcfs_rows s w l = BurstDuration <$> l.
Proof.
  revert s w. induction l as [|p l IH]; intros s w Hs Hw Hvalid Hfit; [done|].
  apply Forall_cons in Hvalid as [[Ha Hb] Hvalid].
  rewrite total_demand_cons in Hfit.
  pose proof (total_demand_ge_burst l Hvalid) as Hd.
  assert (- Int64.max_int <= fcfs_wait s w p <= s) as Hwt.
  { unfold fcfs_wait. destruct (Z.gtb_spec (ArrivalTime p) 0); [|done].
    rewrite sub_exact; in_range_lia. }
  assert (Int64.add s (BurstDuration p) = s + BurstDuration p) as Hadd
    by (apply add_exact; in_range_lia).
  destruct (IH (s + BurstDuration p) (fcfs_wait s w p)) as (Hbal & Hburst);
    [lia|lia|done|lia|].
  cbn [fcfs_rows]. rewrite Hadd. split.
  - constructor; [|done]. unfold row_balanced. simpl.
    rewrite add_exact; [lia|in_range_lia].
  - cbn [fmap list_fmap]. f_equal. exact Hburst.
Qed.

Lemma sjf_exact (l : list Process) (c : Z) :
  0 <= c → Forall valid_process l → c + total_demand l <= Int64.max_int →
  Forall row_balanced (sjf_rows c l) ∧
  row_burst <$> sjf_rows c l = BurstDuration <$> l ∧
  sequential c (sjf_slices c l) ∧
  covered (sjf_slices c l) = total_burst l ∧
  PID <$> sjf_slices c l = ProcessID <$> l.
Proof.
  revert c. induction l as [|p l IH]; intros c Hc Hvalid Hfit.
  { split_and!; done. }
  apply Forall_cons in Hvalid as [[Ha Hb] Hvalid].
  rewrite total_demand_cons in Hfit.
  pose proof (total_demand_ge_burst l Hvalid) as Hd.
  assert (sjf_clock c p = Z.max c (ArrivalTime p) + BurstDuration p) as Hclock.
  { unfold sjf_clock. rewrite max_spec. apply add_exact. in_range_lia. }
  destruct (IH (sjf_clock c p)) as (Hbal & Hburst & Hseq & Hcov & Hpid);
    [lia|done|lia|].
  assert (Int64.sub c (ArrivalTime p) = c - ArrivalTime p) as Hsub
    by (apply sub_exact; in_range_lia).
  assert (Start (sjf_slice c p) = Z.max c (ArrivalTime p)) as Hstart.
  { simpl. rewrite sub_exact; rewrite Hclock; [lia|in_range_lia]. }
  assert (Stop (sjf_slice c p) = sjf_clock c p) as Hstop by done.
  cbn [sjf_rows sjf_slices]. split_and!.
  - constructor; [|done]. unfold row_balanced. simpl.
    rewrite Hsub, max_spec, sub_exact; rewrite Hclock; [lia|in_range_lia].
  - cbn [fmap list_fmap]. f_equal. exact Hburst.
  - cbn [sequential]. rewrite Hstart, Hstop. split_and!; [lia|lia|done].
  - unfold covered in *. cbn [fmap list_fmap sumZ foldr].
    fold (@fmap list _ TimeSlice Z (λ s, Stop s - Start s)).
    unfold sumZ in Hcov. rewrite Hcov, Hstart, Hstop, total_burst_cons. lia.
  - cbn [fmap list_fmap]. f_equal. exact Hpid.
Qed.

Lemma omap_id_Some {A : Type} (l : list A) : omap id (Some <$> l) = l.
Proof. induction l as [|x l IH]; [done|]. cbn. by rewrite IH. Qed.

Lemma FCFSSchedule_spec (w : Writer) (title : string) (processes : list Process) :
  let rows := fcfs_rows 0 0 processes in
  let count := Float64.of_int (Z.of_nat (length processes)) in
  FCFSSchedule w title processes =
  w ++ [OutTitle title; OutGantt (fcfs_slices 0 0 processes);
        OutSchedule (Some <$> rows)
          (Float64.div (total_of row_waiting Float64.zero rows) count)
          (Float64.div (total_of row_turnaround Float64.zero rows) count)
          (Float64.div count (last_completion Float64.zero rows))].
Proof.
  unfold FCFSSchedule, outputSchedule, outputGantt, outputTitle.
  destruct (fcfs_loop_spec processes) as (-> & -> & -> & -> & ->).
  by rewrite <- !app_assoc.
Qed.

(** ** The run of [SJFPrioritySchedule] without wrap-around *)

Lemma remaining_burst_zero (l : list Process) :
  Forall (λ p, Completed p = true) l → remaining_burst l = 0.
Proof. induction 1 as [|p l Hp _ IH]; simpl; [done|]. rewrite Hp. lia. Qed.

Lemma remaining_burst_all (l : list Process) :
  Forall (λ p, Completed p = false) l → remaining_burst l = total_burst l.
Proof.
  induction 1 as [|p l Hp _ IH]; [done|].
  rewrite total_burst_cons. simpl. rewrite Hp. lia.
Qed.

Lemma remaining_burst_perm (l1 l2 : list Process) :
  l1 ≡ₚ l2 → remaining_burst l1 = remaining_burst l2.
Proof. induction 1; simpl; lia. Qed.

Lemma remaining_burst_alter (l : list Process) (i : nat) (p : Process) :
  l !! i = Some p → Completed p = false →
  remaining_burst (alter set_Completed i l) = remaining_burst l - BurstDuration p.
Proof.
  revert i. induction l as [|x l IH]; intros [|i] Hi Hp; simpl in *; try done.
  - injection Hi as ->. rewrite Hp. lia.
  - specialize (IH i Hi Hp). unfold alter in IH. rewrite IH. lia.
Qed.

Lemma fmap_alter_set_Completed {B : Type} (f : Process → B) (l : list Process) (i : nat) :
  (∀ p, f (set_Completed p) = f p) →
  f <$> alter set_Completed i l = f <$> l.
Proof.
  intros Hf. revert i. induction l as [|x l IH]; intros [|i]; simpl; try done.
  - by rewrite Hf.
  - f_equal. apply IH.
Qed.

Lemma total_burst_alter (l : list Process) (i : nat) :
  total_burst (alter set_Completed i l) = total_burst l.
Proof. unfold total_burst. by rewrite fmap_alter_set_Completed. Qed.

Lemma total_demand_alter (l : list Process) (i : nat) :
  total_demand (alter set_Completed i l) = total_demand l.
Proof. unfold total_demand. by rewrite fmap_alter_set_Completed. Qed.

Lemma valid_alter (l : list Process) (i : nat) :
  Forall valid_process l → Forall valid_process (alter set_Completed i l).
Proof. intros Hl. apply Forall_alter; [done|]. intros p _ Hp. exact Hp. Qed.

(** An unfinished process has not arrived later than the total demand minus
    the work left. *)
Lemma unfinished_arrival_bound (l : list Process) (j : nat) (q : Process) :
  Forall valid_process l → l !! j = Some q → Completed q = false →
  ArrivalTime q + remaining_burst l <= total_demand l.
Proof.
  intros Hvalid. revert j.
  induction Hvalid as [|p l (Ha & Hb) Hvalid IH]; intros j Hj Hq.
  { by rewrite lookup_nil in Hj. }
  rewrite total_demand_cons. simpl.
  assert (0 <= remaining_burst l <= total_demand l) as Hrem.
  { clear -Hvalid. induction Hvalid as [|x l (Ha & Hb) _ IH]; [done|].
    rewrite total_demand_cons. simpl. destruct (Completed x); lia. }
  destruct j as [|j]; simpl in Hj.
  - injection Hj as ->. rewrite Hq. lia.
  - specialize (IH j Hj Hq). destruct (Completed p); lia.
Qed.

Lemma remaining_burst_bound (l : list Process) (j : nat) (q : Process) :
  Forall valid_process l → l !! j = Some q → Completed q = false →
  0 < BurstDuration q <= remaining_burst l.
Proof.
  intros Hvalid. revert j.
  induction Hvalid as [|p l (Ha & Hb) Hvalid IH]; intros j Hj Hq.
  { by rewrite lookup_nil in Hj. }
  simpl.
  assert (0 <= remaining_burst l) as Hrem.
  { clear -Hvalid. induction Hvalid as [|x l (Ha & Hb) _ IH]; [done|].
    simpl. destruct (Completed x); lia. }
  destruct j as [|j]; simpl in Hj.
  - injection Hj as ->. rewrite Hq. lia.
  - specialize (IH j Hj Hq). destruct (Completed p); lia.
Qed.

Lemma valid_fits_arrival_typed (l : list Process) :
  Forall valid_process l → fits_int64 l → Forall arrival_typed l.
Proof.
  intros Hvalid Hfit. unfold fits_int64 in Hfit.
  induction Hvalid as [|p l (Ha & Hb) Hvalid IH]; [constructor|].
  rewrite total_demand_cons in Hfit.
  pose proof (total_demand_ge_burst l Hvalid).
  constructor; [unfold arrival_typed; in_range_lia|]. apply IH. lia.
Qed.

Lemma reported_waits_app (w1 w2 : Writer) :
  reported_waits (w1 ++ w2) = reported_waits w1 ++ reported_waits w2.
Proof. unfold reported_waits. apply bind_app. Qed.

Lemma reported_turnarounds_app (w1 w2 : Writer) :
  reported_turnarounds (w1 ++ w2) = reported_turnarounds w1 ++ reported_turnarounds w2.
Proof. unfold reported_turnarounds. apply bind_app. Qed.

Section ExactRun.
Context `{Sorter}.

Lemma exact_run_iter (w0 : Writer) (v : psjf_vars) :
  exact_run w0 v → (p_completed v < length (p_processes v))%nat →
  exact_run w0 (psjf_iter v).
Proof.
  intros (Hcnt & Hvalid & Hfit & Hcur & Hrem & lines & Hw & Hlines & Hlen & Hsum) Hcond.
  pose proof (counted_iter v Hcnt) as Hcnt'.
  destruct (decide (ready_indices (p_processes v) (p_currentTime v) = [])) as [Hnil|Hne].
  - (* idle tick *)
    pose proof (idle_tick_exact v Hcnt Hcond Hnil) as Hit.
    rewrite Hit in Hcnt' |- *. unfold exact_run. simpl.
    split_and!; try done; [lia| |by exists lines].
    destruct Hcnt as (_ & _ & Hc). unfold loop_cond in Hcond. rewrite Hc in Hcond.
    destruct (exists_not_completed _ Hcond) as (j & q & Hq & Hqc).
    assert (p_currentTime v < ArrivalTime q) as Hlt.
    { destruct (Z.lt_ge_cases (p_currentTime v) (ArrivalTime q)) as [|Hge]; [done|].
      assert (j ∈ ready_indices (p_processes v) (p_currentTime v)) as Hin.
      { apply elem_of_ready_indices. exists q. split; [done|].
        apply is_ready_spec. split; [done|lia]. }
      rewrite Hnil in Hin. by apply elem_of_nil in Hin. }
    pose proof (unfinished_arrival_bound _ _ _ Hvalid Hq Hqc). lia.
  - (* a process runs *)
    destruct (psjf_iter_busy v Hne) as (idx & p & Hp & Hpc & Hpa & Hrun).
    rewrite Hrun in Hcnt' |- *. unfold exact_run. simpl.
    pose proof (remaining_burst_bound _ _ _ Hvalid Hp Hpc) as Hpb.
    pose proof (proj1 (Forall_forall _ _) Hvalid p (list_elem_of_lookup_2 _ _ _ Hp))
      as (Hpa0 & Hpb0).
    assert (Int64.sub (p_currentTime v) (ArrivalTime p)
            = p_currentTime v - ArrivalTime p) as Hsub
      by (apply sub_exact; in_range_lia).
    assert (Int64.add (p_currentTime v) (BurstDuration p)
            = p_currentTime v + BurstDuration p) as Hadd
      by (apply add_exact; in_range_lia).
    rewrite total_demand_alter, total_burst_alter,
      (remaining_burst_alter _ _ _ Hp Hpc), Hsub, Hadd.
    split_and!; try done.
    + by apply valid_alter.
    + unfold fits_int64. by rewrite total_demand_alter.
    + lia.
    + lia.
    + eexists (lines ++ [_]). split_and!.
      * rewrite Hw, <- app_assoc. reflexivity.
      * apply Forall_app. split; [done|]. by constructor.
      * rewrite length_app. simpl. lia.
      * rewrite reported_turnarounds_app, reported_waits_app, !sumZ_app.
        cbn. rewrite add_exact; [lia|in_range_lia].
Qed.

Lemma exact_run_start (w : Writer) (title : string) (processes : list Process) :
  Forall valid_process processes → fits_int64 processes →
  Forall (λ p, Completed p = false) processes →
  exact_run (w ++ [LogHeader title]) (psjf_start w title processes).
Proof.
  intros Hvalid Hfit Hfalse.
  pose proof (sort_Slice_perm arrival_less processes) as Hperm.
  assert (Forall (λ p, Completed p = false) (sort_Slice arrival_less processes))
    as Hfalse' by (by rewrite Hperm).
  unfold exact_run. split_and!.
  - apply psjf_start_counted; [|done]. by apply valid_fits_arrival_typed.
  - simpl. by rewrite Hperm.
  - unfold fits_int64. simpl. by rewrite (total_demand_perm _ _ Hperm).
  - done.
  - simpl. rewrite (remaining_burst_all _ Hfalse').
    pose proof (total_demand_ge_burst (sort_Slice arrival_less processes)) as Hd.
    rewrite Hperm in Hd at 1. specialize (Hd Hvalid). lia.
  - exists []. simpl. split_and!; [by rewrite app_nil_r|done|done|].
    rewrite (remaining_burst_all _ Hfalse'). cbn. lia.
Qed.

(** The complete run on a valid process set that fits. *)
Lemma psjf_exact (w : Writer) (title : string) (processes : list Process) :
  Forall valid_process processes → fits_int64 processes →
  Forall (λ p, Completed p = false) processes →
  ∃ n final lines,
    psjf_loop n (psjf_start w title processes) = Some final ∧
    p_w final = w ++ LogHeader title :: lines ∧
    Forall is_completion lines ∧ length lines = length processes ∧
    sumZ (reported_turnarounds lines)
    = sumZ (reported_waits lines) + total_burst processes ∧
    0 <= p_currentTime final <= Int64.max_int ∧
    length (p_processes final) = length processes.
Proof.
  intros Hvalid Hfit Hfalse.
  pose proof (exact_run_start w title processes Hvalid Hfit Hfalse) as Hstart.
  pose proof Hstart as (Hcnt & _).
  destruct (psjf_loop_returns _ Hcnt) as (n & Hrun & _ & _).
  destruct (psjf_loop_invariant (exact_run (w ++ [LogHeader title])) n _ _
              (exact_run_iter _) Hstart Hrun) as (Hfinal & Hexit).
  destruct Hfinal as ((_ & _ & Hc) & Hv & Hf & Hcur & Hrem & lines & Hw & Hl & Hlen & Hsum).
  pose proof (psjf_nth_length n (psjf_start w title processes)) as Hlength.
  assert (length (p_processes (psjf_start w title processes)) = length processes)
    as Hlen0 by (simpl; by rewrite (sort_Slice_perm arrival_less processes)).
  set (final := psjf_nth n (psjf_start w title processes)) in *.
  pose proof (count_completed_le (p_processes final)) as Hle.
  assert (Forall (λ p, Completed p = true) (p_processes final)) as Hall
    by (apply count_completed_full; lia).
  rewrite (remaining_burst_zero _ Hall) in Hsum, Hrem.
  assert (total_burst (p_processes final) = total_burst processes) as Hb.
  { (* the burst durations are those of the input *)
    clear -H. subst final. induction n as [|n IH] using nat_ind.
    - simpl. apply total_burst_perm, sort_Slice_perm.
    - rewrite psjf_nth_S.
      destruct (decide (ready_indices (p_processes (psjf_nth n (psjf_start w title processes)))
                  (p_currentTime (psjf_nth n (psjf_start w title processes))) = []))
        as [Hnil|Hne].
      + by rewrite (psjf_iter_idle _ Hnil).
      + destruct (psjf_iter_busy _ Hne) as (idx & p & _ & _ & _ & ->). simpl.
        by rewrite total_burst_alter. }
  exists n, final, lines. split_and!; try done.
  - by rewrite Hw, <- app_assoc.
  - lia.
  - rewrite Hsum, Hb. lia.
  - in_range_lia.
  - lia.
Qed.

End ExactRun.

(** ** Timelines and sums of the three implemented schedulers *)


Lemma timeline_app (w1 w2 : Writer) : timeline (w1 ++ w2) = timeline w1 ++ timeline w2.
Proof. unfold timeline. apply bind_app. Qed.

Lemma report_of_schedule (title : string) (gantt : list TimeSlice) (rows : list Row)
    (a b c : Float64.t) :
  let produced := [OutTitle title; OutGantt gantt; OutSchedule (Some <$> rows) a b c] in
  reported_turnarounds produced = row_turnaround <$> rows ∧
  reported_waits produced = row_waiting <$> rows ∧
  timeline produced = gantt.
Proof.
  unfold reported_turnarounds, reported_waits, timeline.
  rewrite !bind_cons. simpl.
  by rewrite !app_nil_r, omap_id_Some.
Qed.

Lemma report_of_header (title : string) (lines : Writer) (a b c : Float64.t) :
  let produced :=
    LogHeader title :: lines ++ [LogAvgWait a; LogAvgTurnaround b; LogThroughput c] in
  reported_turnarounds produced = reported_turnarounds lines ∧
  reported_waits produced = reported_waits lines ∧
  timeline produced = timeline lines.
Proof.
  unfold reported_turnarounds, reported_waits, timeline.
  rewrite !bind_cons, !bind_app, !bind_cons. simpl.
  by rewrite !app_nil_r.
Qed.

(** C4 as stated fails: both processes are valid, and under [FCFSSchedule]
    the turnaround of B is [2 + (2^63 - 2)], which wraps to [- 2^63]; the
    turnarounds sum to -1, the waiting times and bursts to [2^64 - 1]. *)
Lemma turnaround_sum_overflows :
  overflowing_processes ≠ [] ∧
  Forall valid_process overflowing_processes ∧
  sumZ (reported_turnarounds (FCFSSchedule [] "FCFS" overflowing_processes)) = -1 ∧
  sumZ (reported_waits (FCFSSchedule [] "FCFS" overflowing_processes))
    + total_burst overflowing_processes = 2 ^ 64 - 1.
Proof.
  split_and!; [done| |reflexivity|reflexivity].
  repeat constructor; unfold valid_process; simpl; lia.
Qed.


Lemma psjf_finish_spec (v : psjf_vars) :
  let n := Float64.of_int (Z.of_nat (length (p_processes v))) in
  psjf_finish v =
  (p_w v ++ [LogAvgWait (Float64.div (p_totalWait v) n);
             LogAvgTurnaround (Float64.div (p_totalTurnaround v) n);
             LogThroughput (Float64.div n (Float64.of_int (p_currentTime v)))],
   p_processes v).
Proof. unfold psjf_finish, Fprintf. by rewrite <- !app_assoc. Qed.

Section Reports.
Context `{Sorter}.

(** C4, amended. For every valid process set (arrival times at least 0,
    burst durations above 0) whose arrival times and burst durations sum to
    at most [2^63 - 1], the turnaround times reported by [FCFSSchedule] and
    by [SJFSchedule] sum to the reported waiting times plus the burst
    durations; so do those of [SJFPrioritySchedule], which returns, when no
    [Completed] flag is set on entry. *)
Theorem turnaround_sum_is_waiting_plus_burst (w : Writer) (title : string)
    (processes : list Process) :
  Forall valid_process processes → fits_int64 processes →
  (∃ produced,
     FCFSSchedule w title processes = w ++ produced ∧
     sumZ (reported_turnarounds produced)
     = sumZ (reported_waits produced) + total_burst processes) ∧
  (∃ produced,
     (SJFSchedule w title processes).1 = w ++ produced ∧
     sumZ (reported_turnarounds produced)
     = sumZ (reported_waits produced) + total_burst processes) ∧
  (Forall (λ p, Completed p = false) processes →
   ∃ n produced processes',
     SJFPrioritySchedule n w title processes = Some (w ++ produced, processes') ∧
     sumZ (reported_turnarounds produced)
     = sumZ (reported_waits produced) + total_burst processes).
Proof.
  intros Hvalid Hfit. split_and!.
  - eexists. split; [apply FCFSSchedule_spec|].
    destruct (fcfs_rows_balanced processes 0 0) as (Hbal & Hburst);
      [lia|in_range_lia|done|in_range_lia|].
    fold (total_burst processes) in Hburst.
    destruct (report_of_schedule title (fcfs_slices 0 0 processes)
                (fcfs_rows 0 0 processes)
                (Float64.div (total_of row_waiting Float64.zero (fcfs_rows 0 0 processes))
                   (Float64.of_int (Z.of_nat (length processes))))
                (Float64.div (total_of row_turnaround Float64.zero (fcfs_rows 0 0 processes))
                   (Float64.of_int (Z.of_nat (length processes))))
                (Float64.div (Float64.of_int (Z.of_nat (length processes)))
                   (last_completion Float64.zero (fcfs_rows 0 0 processes))))
      as (-> & -> & _).
    by rewrite (balanced_sum _ Hbal), Hburst.
  - pose proof (sort_Slice_perm burst_less processes) as Hperm.
    eexists. rewrite SJFSchedule_spec. split; [reflexivity|].
    destruct (sjf_exact (sort_Slice burst_less processes) 0) as (Hbal & Hburst & _).
    { lia. }
    { by rewrite Hperm. }
    { rewrite (total_demand_perm _ _ Hperm). in_range_lia. }
    match goal with
    | |- context [[OutTitle ?t; OutGantt ?g; OutSchedule (Some <$> ?rows) ?a ?b ?c]] =>
        destruct (report_of_schedule t g rows a b c) as (-> & -> & _)
    end.
    rewrite (balanced_sum _ Hbal), Hburst.
    fold (total_burst (sort_Slice burst_less processes)).
    by rewrite (total_burst_perm _ _ Hperm).
  - intros Hfalse.
    destruct (psjf_exact w title processes Hvalid Hfit Hfalse)
      as (n & final & lines & Hrun & Hw & Hl & Hlen & Hsum & _).
    eexists n, (LogHeader title :: lines
                ++ [LogAvgWait _; LogAvgTurnaround _; LogThroughput _]), _.
    split.
    + unfold SJFPrioritySchedule. rewrite Hrun. simpl.
      rewrite psjf_finish_spec, Hw, <- app_assoc. reflexivity.
    + match goal with
      | |- context [LogHeader ?t :: ?l ++ [LogAvgWait ?a; LogAvgTurnaround ?b; LogThroughput ?c]] =>
          destruct (report_of_header t l a b c) as (-> & -> & _)
      end. done.
Qed.


End Reports.

(** ** What each scheduler hands to the writer *)

(** C7 as stated fails: [RRSchedule] writes nothing at all, and
    [SJFPrioritySchedule] writes no timeline. *)
Lemma round_robin_produces_nothing :
  RRSchedule [] "RR" example_processes = [] ∧
  ¬ has_timeline (RRSchedule [] "RR" example_processes) ∧
  ¬ has_rows (RRSchedule [] "RR" example_processes) ∧
  ∃ out ps, SJFPrioritySchedule 3 [] "PSJF" example_processes = Some (out, ps) ∧
            ¬ has_timeline out.
Proof.
  split_and!.
  - reflexivity.
  - intros (g & Hg). by apply elem_of_nil in Hg.
  - intros [(rows & a & b & c & Hin)|(pid & c & wt & tt & Hin)];
      by apply elem_of_nil in Hin.
  - eexists _, _. split; [vm_compute; reflexivity|].
    intros (g & Hg). repeat (apply elem_of_cons in Hg as [Hg|Hg]; [discriminate|]).
    by apply elem_of_nil in Hg.
Qed.

Section Produced.
Context `{Sorter}.

Lemma logged_iter (w0 : Writer) (v : psjf_vars) : logged w0 v → logged w0 (psjf_iter v).
Proof.
  intros (lines & Hw & Hl & Hlen).
  destruct (decide (ready_indices (p_processes v) (p_currentTime v) = [])) as [Hnil|Hne].
  - rewrite (psjf_iter_idle v Hnil). by exists lines.
  - destruct (psjf_iter_busy v Hne) as (idx & p & _ & _ & _ & ->).
    eexists (lines ++ [_]). simpl. split_and!.
    + rewrite Hw, <- app_assoc. reflexivity.
    + apply Forall_app. split; [done|]. by constructor.
    + rewrite length_app. simpl. lia.
Qed.

End Produced.

(** ** Empty input *)

(** C8 as stated fails: on no processes [FCFSSchedule] writes its report,
    and the three aggregates in it are NaN. *)
Lemma empty_input_not_guarded :
  FCFSSchedule [] "FCFS" []
    = [OutTitle "FCFS"; OutGantt []; OutSchedule [] S754_nan S754_nan S754_nan] ∧
  ¬ guarded (FCFSSchedule [] "FCFS" []).
Proof.
  split; [reflexivity|]. intros [Hnil|Hzero]; [discriminate|].
  apply Forall_cons in Hzero as [Hz _]. discriminate.
Qed.

Section EmptyInput.
Context `{Sorter}.

Lemma sort_Slice_nil {A : Type} (less : A → A → bool) : sort_Slice less [] = [].
Proof. apply Permutation_nil_r, sort_Slice_perm. Qed.

(** C8, amended. On no processes none of the three implemented schedulers
    guards the divisions: each writes its report, and the average waiting
    time, the average turnaround time and the throughput in it are all the
    NaN that [0 / 0] gives. *)
Theorem empty_input_reports_nan (w : Writer) (title : string) (fuel : nat) :
  FCFSSchedule w title []
    = w ++ [OutTitle title; OutGantt []; OutSchedule [] S754_nan S754_nan S754_nan] ∧
  SJFSchedule w title []
    = (w ++ [OutTitle title; OutGantt []; OutSchedule [] S754_nan S754_nan S754_nan], []) ∧
  SJFPrioritySchedule fuel w title []
    = Some (w ++ [LogHeader title; LogAvgWait S754_nan; LogAvgTurnaround S754_nan;
                  LogThroughput S754_nan], []) ∧
  Float64.div (Float64.of_int 0) (Float64.of_int 0) = S754_nan.
Proof.
  split_and!.
  - by rewrite FCFSSchedule_spec.
  - by rewrite SJFSchedule_spec, sort_Slice_nil.
  - unfold SJFPrioritySchedule, psjf_start. rewrite sort_Slice_nil.
    rewrite psjf_loop_exit by (simpl; lia). simpl.
    rewrite psjf_finish_spec. simpl. unfold Fprintf. by rewrite <- app_assoc.
  - reflexivity.
Qed.

End EmptyInput.

(** ** Floats of positive integers *)

Lemma digits2_pos_size (p : positive) : digits2_pos p = Pos.size p.
Proof. induction p as [p IH|p IH|]; simpl; congruence. Qed.

Lemma Zdigits2_log2 (x : Z) : 0 < x → Zdigits2 x = Z.log2 x + 1.
Proof.
  destruct x as [|p|p]; try lia. intros _. simpl.
  destruct p as [p|p|]; simpl; rewrite ?digits2_pos_size; lia.
Qed.

Lemma shr_1_m (mrs : shr_record) : 0 <= shr_m mrs → shr_m (shr_1 mrs) = shr_m mrs / 2.
Proof.
  destruct mrs as [m r s]. simpl. intros Hm.
  destruct m as [|[p|p|]|p]; cbn [shr_m]; try lia; try reflexivity.
  - apply Z.div_unique with 1; lia.
  - apply Z.div_unique with 0; lia.
Qed.

Lemma iter_shr_1_m (p : positive) (mrs : shr_record) :
  0 <= shr_m mrs → shr_m (SpecFloat.iter_pos shr_1 p mrs) = shr_m mrs / 2 ^ Zpos p.
Proof.
  revert mrs. induction p as [p IH|p IH|]; intros mrs Hm; simpl SpecFloat.iter_pos.
  - assert (0 <= shr_m (shr_1 mrs)) as H1
      by (rewrite shr_1_m by done; apply Z.div_pos; lia).
    assert (0 <= shr_m (SpecFloat.iter_pos shr_1 p (shr_1 mrs))) as H2
      by (rewrite IH by done; apply Z.div_pos; lia).
    rewrite IH, IH, shr_1_m by done.
    rewrite !Z.div_div by lia.
    f_equal. replace (Zpos p~1) with (1 + Zpos p + Zpos p) by lia.
    rewrite !Z.pow_add_r by lia. lia.
  - assert (0 <= shr_m (SpecFloat.iter_pos shr_1 p mrs)) as H2
      by (rewrite IH by done; apply Z.div_pos; lia).
    rewrite IH, IH by done.
    rewrite !Z.div_div by lia.
    f_equal. replace (Zpos p~0) with (Zpos p + Zpos p) by lia.
    rewrite !Z.pow_add_r by lia. lia.
  - rewrite shr_1_m by done. done.
Qed.

Lemma round_nearest_even_range (mx : Z) (lx : location) :
  round_nearest_even mx lx = mx ∨ round_nearest_even mx lx = mx + 1.
Proof. destruct lx as [|[]]; simpl; auto. destruct (Z.even mx); auto. Qed.

Lemma shr_record_of_loc_m (m : Z) (l : location) : shr_m (shr_record_of_loc m l) = m.
Proof. by destruct l as [|[]]. Qed.

(** One normalisation step: the mantissa is cut down to at most 53 bits. *)
Lemma shr_fexp_spec (m e : Z) (l : location) :
  0 < m → -1074 <= e →
  ∃ mrs, shr_fexp Float64.prec Float64.emax m e l = (mrs, e + Z.max 0 (Z.log2 m - 52)) ∧
         shr_m mrs = m / 2 ^ Z.max 0 (Z.log2 m - 52).
Proof.
  intros Hm He. unfold shr_fexp, shr. rewrite Zdigits2_log2 by done.
  assert (fexp Float64.prec Float64.emax (Z.log2 m + 1 + e) - e = Z.max (Z.log2 m - 52) (-1074 - e)) as ->
    by (unfold fexp, SpecFloat.emin, Float64.prec, Float64.emax; lia).
  destruct (Z.max (Z.log2 m - 52) (-1074 - e)) as [|p|p] eqn:Hmax.
  - eexists. split; [f_equal; lia|].
    replace (Z.max 0 (Z.log2 m - 52)) with 0 by lia.
    rewrite shr_record_of_loc_m, Z.pow_0_r, Z.div_1_r. done.
  - eexists. split; [f_equal; lia|].
    replace (Z.max 0 (Z.log2 m - 52)) with (Zpos p) by lia.
    rewrite iter_shr_1_m; rewrite shr_record_of_loc_m; [done|lia].
  - eexists. split; [f_equal; lia|].
    replace (Z.max 0 (Z.log2 m - 52)) with 0 by lia.
    rewrite shr_record_of_loc_m, Z.pow_0_r, Z.div_1_r. done.
Qed.

Lemma shifted_mantissa (m : Z) :
  0 < m →
  0 < m / 2 ^ Z.max 0 (Z.log2 m - 52) ∧
  Z.log2 (m / 2 ^ Z.max 0 (Z.log2 m - 52)) <= Z.min (Z.log2 m) 52.
Proof.
  intros Hm. pose proof (Z.log2_nonneg m) as Hl.
  set (n := Z.max 0 (Z.log2 m - 52)).
  assert (0 <= n <= Z.log2 m) as Hn by lia.
  rewrite <- Z.shiftr_div_pow2 by lia.
  assert (Z.log2 (Z.shiftr m n) = Z.log2 m - n) as Hlog
    by (rewrite Z.log2_shiftr by done; lia).
  split; [|lia].
  destruct (Z.lt_trichotomy 0 (Z.shiftr m n)) as [|[Hz|Hneg]]; [done| |].
  - rewrite Z.shiftr_div_pow2 in Hz by lia.
    pose proof (Z.log2_spec m Hm) as [Hlo _].
    assert (2 ^ n <= m) as Hle.
    { etransitivity; [|exact Hlo]. apply Z.pow_le_mono_r; lia. }
    symmetry in Hz. apply Z.div_small_iff in Hz; lia.
  - rewrite Z.shiftr_div_pow2 in Hneg by lia.
    pose proof (Z.div_pos m (2 ^ n)). lia.
Qed.

(** Rounding a positive mantissa at an exponent of at least [emin] gives a
    positive number: finite with that sign, or the infinity of that sign. *)
Lemma binary_round_aux_positive (s : bool) (mx ex : Z) (lx : location) :
  0 < mx → -1074 <= ex →
  ∃ m e,
    binary_round_aux Float64.prec Float64.emax s mx ex lx
      = (if e <=? 971 then S754_finite s m e else S754_infinity s) ∧
    ex <= e <= ex + Z.max 0 (Z.log2 mx - 52) + 1 ∧
    Z.log2 (Zpos m) <= 53.
Proof.
  intros Hm He. unfold binary_round_aux.
  destruct (shr_fexp_spec mx ex lx Hm He) as (mrs1 & -> & Hm1).
  destruct (shifted_mantissa mx Hm) as (Hpos1 & Hlog1). rewrite <- Hm1 in Hpos1, Hlog1.
  set (m2 := round_nearest_even (shr_m mrs1) (loc_of_shr_record mrs1)).
  assert (0 < m2 ∧ Z.log2 m2 <= 53) as (Hpos2 & Hlog2).
  { destruct (round_nearest_even_range (shr_m mrs1) (loc_of_shr_record mrs1)) as [E|E];
      fold m2 in E; rewrite E; [lia|].
    split; [lia|]. pose proof (Z.log2_succ_le (shr_m mrs1)). unfold Z.succ in *. lia. }
  destruct (shr_fexp_spec m2 (ex + Z.max 0 (Z.log2 mx - 52)) loc_Exact Hpos2 ltac:(lia))
    as (mrs2 & -> & Hm3).
  destruct (shifted_mantissa m2 Hpos2) as (Hpos3 & Hlog3). rewrite <- Hm3 in Hpos3, Hlog3.
  destruct (shr_m mrs2) as [|m|m] eqn:Hm2; try lia.
  eexists m, _. split; [reflexivity|]. split; [lia|lia].
Qed.

Lemma iter_xO_mul (p d : positive) : Zpos (Pos.iter xO p d) = Zpos p * 2 ^ Zpos d.
Proof.
  induction d as [|d IH] using Pos.peano_ind.
  - simpl. lia.
  - rewrite Pos.iter_succ, Pos2Z.inj_xO, IH, Pos2Z.inj_succ, Z.pow_succ_r; lia.
Qed.

(** The float of a positive [int64]: finite, positive, within these bounds. *)
Lemma of_int_positive (z : Z) :
  0 < z < 2 ^ 63 →
  ∃ m e, Float64.of_int z = S754_finite false m e ∧ -52 <= e <= 11 ∧ Z.log2 (Zpos m) <= 53.
Proof.
  intros Hz. destruct z as [|p|p]; try lia.
  unfold Float64.of_int, binary_normalize, binary_round.
  change (Zpos (digits2_pos p)) with (Zdigits2 (Zpos p)).
  rewrite Zdigits2_log2 by lia.
  pose proof (Z.log2_nonneg (Zpos p)) as Hl0.
  assert (Z.log2 (Zpos p) < 63) as Hl by (apply Z.log2_lt_pow2; lia).
  assert (fexp Float64.prec Float64.emax (Z.log2 (Zpos p) + 1 + 0) = Z.log2 (Zpos p) - 52) as ->
    by (unfold fexp, SpecFloat.emin, Float64.prec, Float64.emax; lia).
  unfold shl_align.
  destruct (Z.log2 (Zpos p) - 52 - 0) as [|d|d] eqn:Hd.
  - destruct (binary_round_aux_positive false (Zpos p) 0 loc_Exact) as (m & e & -> & He & Hm);
      [lia|lia|].
    exists m, e. destruct (Z.leb_spec e 971); [|lia]. split_and!; [done|lia|lia|done].
  - destruct (binary_round_aux_positive false (Zpos p) 0 loc_Exact) as (m & e & -> & He & Hm);
      [lia|lia|].
    exists m, e. destruct (Z.leb_spec e 971); [|lia]. split_and!; [done|lia|lia|done].
  - assert (Z.log2 (Zpos (Pos.iter xO p d)) <= 52) as Hlog.
    { assert (Zpos (Pos.iter xO p d) < 2 ^ 53) as Hlt.
      { rewrite iter_xO_mul.
        pose proof (Z.log2_spec (Zpos p) ltac:(lia)) as [_ Hhi].
        replace 53 with (Z.succ (Z.log2 (Zpos p)) + Zpos d) by lia.
        rewrite Z.pow_add_r by lia.
        apply Z.mul_lt_mono_pos_r; [apply Z.pow_pos_nonneg; lia|done]. }
      apply Z.log2_lt_pow2 in Hlt; lia. }
    destruct (binary_round_aux_positive false (Zpos (Pos.iter xO p d))
                (Z.log2 (Zpos p) - 52) loc_Exact) as (m & e & -> & He & Hm); [lia|lia|].
    exists m, e. destruct (Z.leb_spec e 971); [|lia]. split_and!; [done|lia|lia|done].
Qed.

(** The quotient of two such floats is above zero. *)
Lemma div_positive (m1 m2 : positive) (e1 e2 : Z) :
  -52 <= e1 <= 11 → -52 <= e2 <= 11 →
  Z.log2 (Zpos m1) <= 53 → Z.log2 (Zpos m2) <= 53 →
  Float64.ltb Float64.zero (Float64.div (S754_finite false m1 e1) (S754_finite false m2 e2)) = true.
Proof.
  intros He1 He2 Hl1 Hl2. unfold Float64.ltb, Float64.zero, Float64.div, SFdiv, SFdiv_core_binary.
  rewrite !Zdigits2_log2 by lia.
  pose proof (Z.log2_nonneg (Zpos m1)) as Hn1.
  pose proof (Z.log2_nonneg (Zpos m2)) as Hn2.
  set (l1 := Z.log2 (Zpos m1)) in *. set (l2 := Z.log2 (Zpos m2)) in *.
  assert (Z.min (fexp Float64.prec Float64.emax (l1 + 1 + e1 - (l2 + 1 + e2))) (e1 - e2)
          = e1 - e2 - (53 - l1 + l2)) as ->
    by (unfold fexp, SpecFloat.emin, Float64.prec, Float64.emax; lia).
  replace (e1 - e2 - (e1 - e2 - (53 - l1 + l2))) with (53 - l1 + l2) by lia.
  set (s := 53 - l1 + l2).
  set (m' := match s with Z0 => Zpos m1 | Zpos _ => Z.shiftl (Zpos m1) s | Zneg _ => 0 end).
  assert (m' = Zpos m1 * 2 ^ s) as Hm'.
  { subst m'. destruct s as [|p|p] eqn:Hs; [lia| |lia].
    rewrite Z.shiftl_mul_pow2; lia. }
  assert (Zpos m2 <= m') as Hle.
  { pose proof (Z.log2_spec (Zpos m1) ltac:(lia)) as [Hlo1 _].
    pose proof (Z.log2_spec (Zpos m2) ltac:(lia)) as [_ Hhi2].
    fold l1 in Hlo1. fold l2 in Hhi2.
    assert (2 ^ Z.succ l2 <= 2 ^ l1 * 2 ^ s) as Hpow.
    { rewrite <- Z.pow_add_r by lia. apply Z.pow_le_mono_r; lia. }
    assert (2 ^ l1 * 2 ^ s <= Zpos m1 * 2 ^ s) as Hmul.
    { apply Z.mul_le_mono_nonneg_r; [apply Z.pow_nonneg; lia|done]. }
    lia. }
  pose proof (Z_div_mod m' (Zpos m2) ltac:(lia)) as Hdiv.
  destruct (Z.div_eucl m' (Zpos m2)) as [q r].
  destruct Hdiv as [Heq Hr].
  assert (0 < q) as Hq by nia.
  destruct (binary_round_aux_positive (xorb false false) q (e1 - e2 - s)
              (new_location (Zpos m2) r) Hq ltac:(lia)) as (m & e & -> & _).
  by destruct (e <=? 971).
Qed.

(** Dividing the float of a positive [int64] by the float of another gives a
    float above zero. *)
Lemma div_of_int_positive (a b : Z) :
  0 < a < 2 ^ 63 → 0 < b < 2 ^ 63 →
  Float64.ltb Float64.zero (Float64.div (Float64.of_int a) (Float64.of_int b)) = true.
Proof.
  intros Ha Hb.
  destruct (of_int_positive a Ha) as (m1 & e1 & -> & He1 & Hl1).
  destruct (of_int_positive b Hb) as (m2 & e2 & -> & He2 & Hl2).
  by apply div_positive.
Qed.

(** ** Throughput *)

Lemma throughput_of_schedule (title : string) (gantt : list TimeSlice) (rows : list Row)
    (a b c : Float64.t) :
  let produced := [OutTitle title; OutGantt gantt; OutSchedule (Some <$> rows) a b c] in
  completion_times produced = row_completion <$> rows ∧
  reported_throughput produced = Some c.
Proof.
  unfold completion_times, reported_throughput.
  rewrite !bind_cons. simpl. by rewrite !app_nil_r, omap_id_Some.
Qed.

Lemma completions_no_throughput (lines : Writer) :
  Forall is_completion lines → lines ≫= throughputs_of = [].
Proof.
  induction 1 as [|o lines Ho _ IH]; [done|].
  rewrite bind_cons, IH. by destruct o.
Qed.

Lemma sjf_last_completion (l : list Process) (c : Z) (r : Row) :
  last (sjf_rows c l) = Some r → row_completion r = foldl sjf_clock c l.
Proof.
  revert c. induction l as [|p l IH]; intros c; [done|].
  cbn [sjf_rows foldl]. rewrite last_cons.
  destruct (last (sjf_rows (sjf_clock c p) l)) as [r'|] eqn:Hlast.
  - intros [= <-]. by apply IH.
  - intros [= <-]. destruct l as [|q l]; [done|].
    cbn [sjf_rows] in Hlast. rewrite last_cons in Hlast.
    by destruct (last (sjf_rows (sjf_clock (sjf_clock c p) q) l)).
Qed.

Lemma fcfs_completion_in_range (s w : Z) (l : list Process) :
  Forall (λ r, Int64.in_range (row_completion r)) (fcfs_rows s w l).
Proof.
  revert s w. induction l as [|p l IH]; intros s w; cbn [fcfs_rows]; constructor.
  - apply wrap_in_range.
  - apply IH.
Qed.

Lemma sjf_completion_in_range (c : Z) (l : list Process) :
  Forall (λ r, Int64.in_range (row_completion r)) (sjf_rows c l).
Proof.
  revert c. induction l as [|p l IH]; intros c; cbn [sjf_rows]; constructor.
  - apply wrap_in_range.
  - apply IH.
Qed.

Lemma positive_quotient (n : nat) (c : Z) :
  n ≠ 0%nat → Z.of_nat n <= Int64.max_int → Int64.in_range c → 0 < c →
  Float64.ltb Float64.zero
    (Float64.div (Float64.of_int (Z.of_nat n)) (Float64.of_int c)) = true.
Proof.
  intros Hn Hmax Hc Hpos. apply div_of_int_positive; in_range_lia.
Qed.

Section Throughput.
Context `{Sorter}.

Lemma psjf_last_iteration (v : psjf_vars) (n : nat) :
  loop_cond v →
  (∀ k, (k < n)%nat → loop_cond (psjf_nth k v)) → ¬ loop_cond (psjf_nth n v) →
  ∃ u idx p, loop_cond u ∧ psjf_nth n v = psjf_run u idx p ∧
             ∃ k, u = psjf_nth k v.
Proof.
  intros Hstart Hcond Hexit. destruct n as [|n]; [done|].
  exists (psjf_nth n v). rewrite psjf_nth_S in Hexit |- *.
  specialize (Hcond n ltac:(lia)).
  destruct (decide (ready_indices (p_processes (psjf_nth n v))
                      (p_currentTime (psjf_nth n v)) = [])) as [Hnil|Hne].
  - rewrite (psjf_iter_idle _ Hnil) in Hexit. done.
  - destruct (psjf_iter_busy _ Hne) as (idx & p & _ & _ & _ & Hrun).
    exists idx, p. split_and!; [done|done|by exists n].
Qed.

(** C9. For every non-empty input (of a length that fits Go's [int]), each
    of the three implemented schedulers reports as throughput the float of
    the process count divided by the float of the last completion time it
    reports, and this quotient is above zero when that completion time is
    positive.  ([SJFPrioritySchedule] returns when no [Completed] flag is
    set on entry.) *)
Theorem throughput_is_count_over_last_completion (w : Writer) (title : string)
    (processes : list Process) :
  processes ≠ [] → Z.of_nat (length processes) <= Int64.max_int →
  (∃ produced,
     FCFSSchedule w title processes = w ++ produced ∧
     throughput_reported (length processes) produced) ∧
  (∃ produced,
     (SJFSchedule w title processes).1 = w ++ produced ∧
     throughput_reported (length processes) produced) ∧
  (Forall well_typed processes → Forall (λ p, Completed p = false) processes →
   ∃ n produced processes',
     SJFPrioritySchedule n w title processes = Some (w ++ produced, processes') ∧
     throughput_reported (length processes) produced).
Proof.
  intros Hne Hlen.
  assert (length processes ≠ 0%nat) as Hn by (by destruct processes).
  split_and!.
  - eexists. split; [apply FCFSSchedule_spec|].
    match goal with
    | |- context [[OutTitle ?t; OutGantt ?g; OutSchedule (Some <$> ?rows) ?a ?b ?c]] =>
        destruct (throughput_of_schedule t g rows a b c) as (Hct & Hthr)
    end.
    assert (is_Some (last (fcfs_rows 0 0 processes))) as [r Hr].
    { apply last_is_Some. intros Hnil. apply (f_equal length) in Hnil.
      rewrite fcfs_rows_length in Hnil. done. }
    eexists (row_completion r), _. split_and!.
    + by rewrite Hct, fmap_last, Hr.
    + exact Hthr.
    + unfold last_completion. by rewrite Hr.
    + intros Hpos. unfold last_completion. rewrite Hr.
      apply positive_quotient; [done|done| |done].
      pose proof (fcfs_completion_in_range 0 0 processes) as Hall.
      rewrite Forall_forall in Hall. apply Hall.
      apply last_Some_elem_of in Hr. done.
  - pose proof (sort_Slice_perm burst_less processes) as Hperm.
    eexists. rewrite SJFSchedule_spec. split; [reflexivity|].
    match goal with
    | |- context [[OutTitle ?t; OutGantt ?g; OutSchedule (Some <$> ?rows) ?a ?b ?c]] =>
        destruct (throughput_of_schedule t g rows a b c) as (Hct & Hthr)
    end.
    assert (length (sort_Slice burst_less processes) = length processes) as Hlen'
      by (by rewrite Hperm).
    assert (is_Some (last (sjf_rows 0 (sort_Slice burst_less processes)))) as [r Hr].
    { apply last_is_Some. intros Hnil. apply (f_equal length) in Hnil.
      rewrite sjf_rows_length, Hlen' in Hnil. done. }
    eexists (row_completion r), _. split_and!.
    + by rewrite Hct, fmap_last, Hr.
    + exact Hthr.
    + by rewrite (sjf_last_completion _ _ _ Hr), Hlen'.
    + intros Hpos. rewrite <- (sjf_last_completion _ _ _ Hr), Hlen'.
      apply positive_quotient; [done|done| |done].
      pose proof (sjf_completion_in_range 0 (sort_Slice burst_less processes)) as Hall.
      rewrite Forall_forall in Hall. apply Hall.
      apply last_Some_elem_of in Hr. done.
  - intros Hwt Hfalse.
    assert (Forall arrival_typed processes) as Hat
      by (eapply Forall_impl; [exact Hwt|]; by intros p (Ha & _)).
    pose proof (psjf_start_counted w title processes Hat Hfalse) as Hstart.
    pose proof (sort_Slice_perm arrival_less processes) as Hperm.
    destruct (psjf_loop_returns _ Hstart) as (n & Hrun & Hcond & Hexit).
    assert (loop_cond (psjf_start w title processes)) as Hc0.
    { unfold loop_cond. simpl. rewrite Hperm. lia. }
    destruct (psjf_last_iteration _ n Hc0 Hcond Hexit)
      as (u & idx & p & Hu & Hfinal & k & ->).
    assert (logged (w ++ [LogHeader title]) (psjf_nth k (psjf_start w title processes)))
      as (lines & Hw & Hl & _).
    { clear. induction k as [|k IH].
      - exists []. simpl. by rewrite app_nil_r.
      - rewrite psjf_nth_S. by apply logged_iter. }
    pose proof (psjf_nth_length n (psjf_start w title processes)) as Hlength.
    simpl in Hlength. rewrite Hperm in Hlength.
    rewrite Hfinal in Hlength. simpl in Hlength.
    eexists n, (LogHeader title :: lines ++ [LogCompleted _ _ _ _]
                ++ [LogAvgWait _; LogAvgTurnaround _; LogThroughput _]), _.
    split.
    + unfold SJFPrioritySchedule. rewrite Hrun. simpl.
      rewrite psjf_finish_spec, Hfinal. simpl. rewrite Hw, <- !app_assoc. reflexivity.
    + eexists _, _. split_and!.
      * unfold completion_times.
        rewrite bind_cons, !bind_app, bind_cons. simpl.
        apply last_snoc.
      * unfold reported_throughput.
        rewrite bind_cons, !bind_app, (completions_no_throughput _ Hl). reflexivity.
      * by rewrite Hlength.
      * intros Hpos. rewrite Hlength.
        apply positive_quotient; [done|done| |done]. apply wrap_in_range.
Qed.

End Throughput.

(** ** The theorems at concrete inputs *)

(** The two worked examples of the specification (section 8). *)
Example fcfs_example :
  f_gantt (fcfs_loop example_processes)
    = [mkTimeSlice "A" 0 5; mkTimeSlice "B" 5 8; mkTimeSlice "C" 8 9] ∧
  reported_waits (FCFSSchedule [] "FCFS" example_processes) = [0; 4; 6].
Proof. split; reflexivity. Qed.

Example psjf_example :
  fst <$> SJFPrioritySchedule 3 [] "PSJF" example_processes
  = Some [LogHeader "PSJF"; LogCompleted "A" 5 0 5; LogCompleted "C" 6 3 4;
          LogCompleted "B" 9 5 8;
          LogAvgWait (Float64.div (Float64.of_int 8) (Float64.of_int 3));
          LogAvgTurnaround (Float64.div (Float64.of_int 17) (Float64.of_int 3));
          LogThroughput (Float64.div (Float64.of_int 3) (Float64.of_int 9))].
Proof. vm_compute. reflexivity. Qed.


Ltac decide_Z := vm_compute; repeat split; try reflexivity; try (intro; discriminate).

Ltac decide_Forall := repeat (constructor; [decide_Z|]); constructor.

Lemma selected_has_min_burst_witness :
  ready_indices (p_processes state_after_A) (p_currentTime state_after_A) ≠ [] ∧
  ∃ idx p,
    head (available (p_processes state_after_A) (p_currentTime state_after_A)) = Some idx ∧
    p_processes state_after_A !! idx = Some p ∧
    Completed p = false ∧ ArrivalTime p <= p_currentTime state_after_A ∧
    p_processes (psjf_iter state_after_A)
      = alter set_Completed idx (p_processes state_after_A) ∧
    ∀ j q, p_processes state_after_A !! j = Some q →
           Completed q = false → ArrivalTime q <= p_currentTime state_after_A →
           BurstDuration p <= BurstDuration q ∧
           (BurstDuration p = BurstDuration q → Priority p <= Priority q).
Proof.
  assert (ready_indices (p_processes state_after_A) (p_currentTime state_after_A) ≠ [])
    as Hready by (vm_compute; discriminate).
  split; [exact Hready|].
  exact (@selected_has_min_burst merge_Sorter state_after_A Hready).
Defined.


Lemma precompleted_never_terminates_witness :
  (∀ k, loop_cond (psjf_nth k (psjf_start [] "PSJF" precompleted_processes))) ∧
  (∀ fuel, SJFPrioritySchedule fuel [] "PSJF" precompleted_processes = None).
Proof.
  apply (@precompleted_never_terminates merge_Sorter [] "PSJF" precompleted_processes
           (mkProcess "B" 1 3 2 true 0 0 0)).
  - apply elem_of_cons. right. apply elem_of_cons. by left.
  - reflexivity.
Defined.

Lemma turnaround_sum_witness :
  Forall valid_process example_processes ∧ fits_int64 example_processes ∧
  (∃ produced,
     FCFSSchedule [] "FCFS" example_processes = [] ++ produced ∧
     sumZ (reported_turnarounds produced)
     = sumZ (reported_waits produced) + total_burst example_processes) ∧
  (∃ produced,
     (SJFSchedule [] "SJF" example_processes).1 = [] ++ produced ∧
     sumZ (reported_turnarounds produced)
     = sumZ (reported_waits produced) + total_burst example_processes).
Proof.
  assert (Forall valid_process example_processes) as Hvalid by decide_Forall.
  assert (fits_int64 example_processes) as Hfit by decide_Z.
  split; [exact Hvalid|]. split; [exact Hfit|].
  split.
  - exact (proj1 (@turnaround_sum_is_waiting_plus_burst merge_Sorter [] "FCFS"
                    example_processes Hvalid Hfit)).
  - exact (proj1 (proj2 (@turnaround_sum_is_waiting_plus_burst merge_Sorter [] "SJF"
                           example_processes Hvalid Hfit))).
Defined.


Lemma throughput_witness :
  example_processes ≠ [] ∧
  Z.of_nat (length example_processes) <= Int64.max_int ∧
  (∃ produced,
     FCFSSchedule [] "FCFS" example_processes = [] ++ produced ∧
     throughput_reported (length example_processes) produced) ∧
  (∃ produced,
     (SJFSchedule [] "SJF" example_processes).1 = [] ++ produced ∧
     throughput_reported (length example_processes) produced).
Proof.
  assert (example_processes ≠ []) as Hne by discriminate.
  assert (Z.of_nat (length example_processes) <= Int64.max_int) as Hlen by decide_Z.
  split; [exact Hne|]. split; [exact Hlen|].
  split.
  - exact (proj1 (@throughput_is_count_over_last_completion merge_Sorter [] "FCFS"
                    example_processes Hne Hlen)).
  - exact (proj1 (proj2 (@throughput_is_count_over_last_completion merge_Sorter [] "SJF"
                           example_processes Hne Hlen))).
Defined.

(** * Further properties of the schedulers *)

(** ** [FCFSSchedule], position by position *)

Lemma fcfs_carry_service (l : list Process) (s w : Z) :
  (foldl fcfs_carry (s, w) l).1 = foldl (λ s q, Int64.add s (BurstDuration q)) s l.
Proof. revert s w. induction l as [|p l IH]; intros s w; simpl; [done|]. apply IH. Qed.

Lemma fcfs_rows_lookup (l : list Process) (s w : Z) (i : nat) (p : Process) :
  l !! i = Some p →
  fcfs_rows s w l !! i
  = Some (fcfs_row (foldl fcfs_carry (s, w) (take i l)).1
                   (foldl fcfs_carry (s, w) (take i l)).2 p).
Proof.
  revert s w i. induction l as [|x l IH]; intros s w [|i] Hi; simpl in *; try done.
  - by injection Hi as ->.
  - by apply IH.
Qed.

Lemma fcfs_slices_lookup (l : list Process) (s w : Z) (i : nat) (p : Process) :
  l !! i = Some p →
  fcfs_slices s w l !! i
  = Some (fcfs_slice (foldl fcfs_carry (s, w) (take i l)).1
                     (foldl fcfs_carry (s, w) (take i l)).2 p).
Proof.
  revert s w i. induction l as [|x l IH]; intros s w [|i] Hi; simpl in *; try done.
  - by injection Hi as ->.
  - by apply IH.
Qed.

Lemma fcfs_service_in_range (l : list Process) : Int64.in_range (fcfs_service l).
Proof.
  unfold fcfs_service. induction l as [|p l IH] using rev_ind.
  - simpl. in_range_lia.
  - rewrite foldl_app. simpl. apply wrap_in_range.
Qed.

Lemma fcfs_service_snoc (l : list Process) (p : Process) :
  fcfs_service (l ++ [p]) = Int64.add (fcfs_service l) (BurstDuration p).
Proof. unfold fcfs_service. by rewrite foldl_app. Qed.

Lemma wrap_add_wrap_r (x y : Z) : Int64.wrap (x + Int64.wrap y) = Int64.wrap (x + y).
Proof. rewrite Z.add_comm, wrap_add_wrap. f_equal. lia. Qed.

Lemma fcfs_columns (s w : Z) (l : list Process) :
  PID <$> fcfs_slices s w l = ProcessID <$> l ∧
  row_pid <$> fcfs_rows s w l = ProcessID <$> l ∧
  row_priority <$> fcfs_rows s w l = Priority <$> l ∧
  row_burst <$> fcfs_rows s w l = BurstDuration <$> l ∧
  row_arrival <$> fcfs_rows s w l = ArrivalTime <$> l.
Proof.
  revert s w. induction l as [|p l IH]; intros s w; [done|].
  destruct (IH (Int64.add s (BurstDuration p)) (fcfs_wait s w p)) as (H1 & H2 & H3 & H4 & H5).
  cbn [fcfs_rows fcfs_slices fmap list_fmap].
  change (list_fmap ?A ?B ?f ?l) with (f <$> l).
  rewrite H1, H2, H3, H4, H5. done.
Qed.

(** X1. [FCFSSchedule] keeps the input order and copies the input columns:
    segment [i] and row [i] are those of process [i], whatever the arrival
    times are; nothing is sorted. *)
Theorem fcfs_keeps_input_order (w : Writer) (title : string) (processes : list Process) :
  ∃ gantt rows a b c,
    FCFSSchedule w title processes
      = w ++ [OutTitle title; OutGantt gantt; OutSchedule (Some <$> rows) a b c] ∧
    PID <$> gantt = ProcessID <$> processes ∧
    row_pid <$> rows = ProcessID <$> processes ∧
    row_priority <$> rows = Priority <$> processes ∧
    row_burst <$> rows = BurstDuration <$> processes ∧
    row_arrival <$> rows = ArrivalTime <$> processes.
Proof.
  eexists _, _, _, _, _. split; [apply FCFSSchedule_spec|]. apply fcfs_columns.
Qed.

(** X2. [FCFSSchedule] never leaves the processor idle.  Every segment
    stops at the wrapped sum of the burst durations up to its process, and
    the segment of a process with a positive arrival time starts where the
    segment before it stopped (at 0 for the first), also when that is before
    the process arrives; the completion time in its row is the stop of its
    segment. *)
Theorem fcfs_never_idles (w : Writer) (title : string) (processes : list Process) :
  ∃ gantt rows a b c,
    FCFSSchedule w title processes
      = w ++ [OutTitle title; OutGantt gantt; OutSchedule (Some <$> rows) a b c] ∧
    ∀ i p, processes !! i = Some p →
      ∃ seg row,
        gantt !! i = Some seg ∧ rows !! i = Some row ∧
        Stop seg = fcfs_service (take (S i) processes) ∧
        (ArrivalTime p > 0 →
         Start seg = fcfs_service (take i processes) ∧
         row_completion row = Stop seg).
Proof.
  eexists _, _, _, _, _. split; [apply FCFSSchedule_spec|].
  intros i p Hi. eexists _, _.
  split; [by apply fcfs_slices_lookup|]. split; [by apply fcfs_rows_lookup|].
  rewrite (take_S_r _ _ _ Hi), fcfs_service_snoc.
  unfold fcfs_service. rewrite <- (fcfs_carry_service (take i processes) 0 0).
  split; [done|]. intros Ha.
  pose proof (fcfs_service_in_range (take i processes)) as Hrange.
  unfold fcfs_service in Hrange.
  rewrite <- (fcfs_carry_service (take i processes) 0 0) in Hrange.
  split; [by apply fcfs_start_service|].
  simpl. unfold fcfs_wait. destruct (Z.gtb_spec (ArrivalTime p) 0); [|lia].
  unfold Int64.add, Int64.sub. rewrite wrap_add_wrap, wrap_add_wrap_r. f_equal. lia.
Qed.

(** X3. The waiting time [FCFSSchedule] reports, position by position: for a
    process with a positive arrival time it is the service time (the wrapped
    sum of the burst durations before it) minus the arrival time, wrapped
    and not clamped at 0; for any other process it is the waiting time of the
    row before it, and 0 at the first position.  The turnaround is always
    the burst duration plus that waiting time. *)
Theorem fcfs_waiting_by_position (w : Writer) (title : string) (processes : list Process) :
  ∃ gantt rows a b c,
    FCFSSchedule w title processes
      = w ++ [OutTitle title; OutGantt gantt; OutSchedule (Some <$> rows) a b c] ∧
    ∀ i p, processes !! i = Some p →
      ∃ row,
        rows !! i = Some row ∧
        row_turnaround row = Int64.add (BurstDuration p) (row_waiting row) ∧
        (ArrivalTime p > 0 →
         row_waiting row = Int64.sub (fcfs_service (take i processes)) (ArrivalTime p)) ∧
        (ArrivalTime p <= 0 →
         match i with
         | O => row_waiting row = 0
         | S j => ∃ before, rows !! j = Some before ∧ row_waiting row = row_waiting before
         end).
Proof.
  eexists _, _, _, _, _. split; [apply FCFSSchedule_spec|].
  intros i p Hi. eexists. split; [by apply fcfs_rows_lookup|].
  split; [reflexivity|]. cbn [row_waiting fcfs_row].
  split; intros Ha; unfold fcfs_wait;
    destruct (Z.gtb_spec (ArrivalTime p) 0) as [Hpos|Hle]; try lia.
  - unfold fcfs_service. by rewrite <- (fcfs_carry_service (take i processes) 0 0).
  - destruct i as [|j]; [done|].
    assert (is_Some (processes !! j)) as [q Hq]
      by (apply lookup_lt_is_Some; apply lookup_lt_Some in Hi; lia).
    eexists. split; [by apply fcfs_rows_lookup|].
    rewrite (take_S_r _ _ _ Hq), foldl_app. done.
Qed.



(** ** [SJFSchedule], position by position *)

Lemma sjf_slices_lookup (c : Z) (l : list Process) (i : nat) (p : Process) :
  l !! i = Some p →
  sjf_slices c l !! i = Some (sjf_slice (foldl sjf_clock c (take i l)) p).
Proof.
  revert c i. induction l as [|x l IH]; intros c [|i] Hi; simpl in *; try done.
  - by injection Hi as ->.
  - by apply IH.
Qed.

(** The clock stays within bounds all along a valid process set that fits. *)
Lemma sjf_clock_bound (l : list Process) (c : Z) (i : nat) :
  0 <= c → Forall valid_process l → c + total_demand l <= Int64.max_int →
  0 <= foldl sjf_clock c (take i l) ∧
  foldl sjf_clock c (take i l) + total_demand (drop i l) <= Int64.max_int.
Proof.
  revert c i. induction l as [|p l IH]; intros c i Hc Hvalid Hfit.
  - destruct i; simpl; unfold total_demand in *; simpl in *; lia.
  - destruct i as [|i]; [simpl; lia|].
    apply Forall_cons in Hvalid as [[Ha Hb] Hvalid].
    rewrite total_demand_cons in Hfit.
    pose proof (total_demand_ge_burst l Hvalid) as Hd.
    assert (sjf_clock c p = Z.max c (ArrivalTime p) + BurstDuration p) as Hclock.
    { unfold sjf_clock. rewrite max_spec. apply add_exact. in_range_lia. }
    simpl. apply IH; [lia|done|lia].
Qed.

Section ShortestJobFirstTimes.
Context `{Sorter}.

(** X5. On a valid process set that fits, [SJFSchedule] starts every process
    as soon as the processor is free and the process has arrived, never
    before its arrival, and runs it for exactly its burst duration; the
    waiting time in its row is the time from its arrival to its start and
    the completion time is the stop of its segment. *)
Theorem sjf_runs_after_arrival (w : Writer) (title : string) (processes : list Process) :
  Forall valid_process processes → fits_int64 processes →
  ∃ sorted gantt rows a b c,
    SJFSchedule w title processes
      = (w ++ [OutTitle title; OutGantt gantt; OutSchedule (Some <$> rows) a b c],
         sorted) ∧
    ∀ i p, sorted !! i = Some p →
      ∃ seg row,
        gantt !! i = Some seg ∧ rows !! i = Some row ∧
        PID seg = ProcessID p ∧
        Start seg = Z.max (sjf_clock_at sorted i) (ArrivalTime p) ∧
        Stop seg = Start seg + BurstDuration p ∧
        row_waiting row = Start seg - ArrivalTime p ∧
        row_completion row = Stop seg.
Proof.
  intros Hvalid Hfit.
  pose proof (sort_Slice_perm burst_less processes) as Hperm.
  eexists _, _, _, _, _, _. split; [apply SJFSchedule_spec|].
  intros i p Hi. eexists _, _.
  split; [by apply sjf_slices_lookup|]. split; [by apply sjf_rows_lookup|].
  rewrite sjf_clock_at_spec.
  destruct (sjf_clock_bound (sort_Slice burst_less processes) 0 i) as (Hlo & Hhi).
  { lia. }
  { by rewrite Hperm. }
  { rewrite (total_demand_perm _ _ Hperm). in_range_lia. }
  set (c := foldl sjf_clock 0 (take i (sort_Slice burst_less processes))) in *.
  assert (valid_process p ∧ ArrivalTime p + BurstDuration p
          <= total_demand (drop i (sort_Slice burst_less processes))) as ((Ha & Hb) & Hp).
  { assert (Forall valid_process (sort_Slice burst_less processes)) as Hv
      by (by rewrite Hperm).
    rewrite (drop_S _ _ _ Hi), total_demand_cons.
    pose proof (total_demand_ge_burst (drop (S i) (sort_Slice burst_less processes))
                  (Forall_drop _ _ _ Hv)).
    rewrite Forall_forall in Hv. split; [|lia].
    apply Hv. by eapply list_elem_of_lookup_2. }
  assert (sjf_clock c p = Z.max c (ArrivalTime p) + BurstDuration p) as Hclock.
  { unfold sjf_clock. rewrite max_spec. apply add_exact. in_range_lia. }
  assert (Start (sjf_slice c p) = Z.max c (ArrivalTime p)) as Hstart.
  { simpl. rewrite sub_exact; rewrite Hclock; [lia|in_range_lia]. }
  split_and!.
  - done.
  - exact Hstart.
  - rewrite Hstart. exact Hclock.
  - rewrite Hstart. simpl. rewrite max_spec, sub_exact; [lia|in_range_lia].
  - done.
Qed.

End ShortestJobFirstTimes.

(** ** The run of [SJFPrioritySchedule], line by line *)

Lemma completed_pids_none (l : list Process) :
  Forall (λ p, Completed p = false) l → completed_pids l = [].
Proof. induction 1 as [|p l Hp _ IH]; simpl; [done|]. by rewrite Hp. Qed.

Lemma completed_pids_all (l : list Process) :
  Forall (λ p, Completed p = true) l → completed_pids l = ProcessID <$> l.
Proof. induction 1 as [|p l Hp _ IH]; simpl; [done|]. by rewrite Hp, IH. Qed.

Lemma completed_pids_alter (l : list Process) (i : nat) (p : Process) :
  l !! i = Some p → Completed p = false →
  completed_pids (alter set_Completed i l) ≡ₚ ProcessID p :: completed_pids l.
Proof.
  revert i. induction l as [|x l IH]; intros [|i] Hi Hp; simpl in *; try done.
  - injection Hi as ->. by rewrite Hp.
  - specialize (IH i Hi Hp). unfold alter in IH.
    destruct (Completed x); [|done]. rewrite IH. apply Permutation_swap.
Qed.

Lemma set_Completed_idemp (p : Process) : set_Completed (set_Completed p) = set_Completed p.
Proof. done. Qed.

Lemma flags_only_refl (l : list Process) : flags_only l l.
Proof. apply Forall2_same_length_lookup. split; [done|]. intros i p q Hp Hq. left. congruence. Qed.

Lemma flags_only_alter (l l0 : list Process) (i : nat) :
  flags_only l l0 → flags_only (alter set_Completed i l) l0.
Proof.
  intros Hl. apply Forall2_alter_l; [done|].
  intros p q _ _ [-> | ->]; right; [done|apply set_Completed_idemp].
Qed.

Lemma flags_only_full (l l0 : list Process) :
  flags_only l l0 → Forall (λ p, Completed p = true) l →
  Forall (λ p, Completed p = false) l0 → l = set_Completed <$> l0.
Proof.
  induction 1 as [|p q l l0 Hpq _ IH]; intros Hl Hl0; [done|].
  apply Forall_cons in Hl as [Hp Hl]. apply Forall_cons in Hl0 as [Hq Hl0].
  cbn. f_equal; [|by apply IH].
  destruct Hpq as [-> | ->]; [congruence|done].
Qed.

Lemma count_completed_flagged (l : list Process) :
  count_completed (set_Completed <$> l) = length l.
Proof. induction l as [|p l IH]; [done|]. cbn. by rewrite IH. Qed.

Lemma completed_in_log_app (w1 w2 : Writer) :
  completed_in_log (w1 ++ w2) = completed_in_log w1 ++ completed_in_log w2.
Proof. unfold completed_in_log. apply bind_app. Qed.

Lemma completion_times_app (w1 w2 : Writer) :
  completion_times (w1 ++ w2) = completion_times w1 ++ completion_times w2.
Proof. unfold completion_times. apply bind_app. Qed.

Lemma remaining_burst_nonneg (l : list Process) :
  Forall valid_process l → 0 <= remaining_burst l.
Proof.
  induction 1 as [|x l (Ha & Hb) _ IH]; [done|]. simpl. destruct (Completed x); lia.
Qed.

Section LineByLine.
Context `{Sorter}.

(** A run from [psjf_start] on unflagged processes: it returns after exactly
    [n] iterations, and what every iteration of the run maintains holds at
    the end. *)
Lemma psjf_run_maintains (P : psjf_vars → Prop) (w : Writer) (title : string)
    (processes : list Process) :
  Forall arrival_typed processes →
  Forall (λ p, Completed p = false) processes →
  P (psjf_start w title processes) →
  (∀ u, counted u → loop_cond u → P u → P (psjf_iter u)) →
  ∃ n final,
    psjf_loop n (psjf_start w title processes) = Some final ∧
    final = psjf_nth n (psjf_start w title processes) ∧
    (∀ k, (k < n)%nat → loop_cond (psjf_nth k (psjf_start w title processes))) ∧
    SJFPrioritySchedule n w title processes = Some (psjf_finish final) ∧
    P final ∧ counted final ∧
    Forall (λ p, Completed p = true) (p_processes final) ∧
    p_completed final = length processes.
Proof.
  intros Hat Hfalse Hstart Hstep.
  pose proof (psjf_start_counted w title processes Hat Hfalse) as Hcounted.
  destruct (psjf_loop_returns _ Hcounted) as (n & Hrun & Hcond & Hexit).
  destruct (psjf_loop_invariant (λ v, counted v ∧ P v) n _ _
              (λ u Hu Hc, conj (counted_iter u (proj1 Hu)) (Hstep u (proj1 Hu) Hc (proj2 Hu)))
              (conj Hcounted Hstart) Hrun) as ((Hcnt & HP) & Hge).
  pose proof (psjf_nth_length n (psjf_start w title processes)) as Hlength.
  assert (length (p_processes (psjf_start w title processes)) = length processes)
    as Hlen0 by (simpl; by rewrite (sort_Slice_perm arrival_less processes)).
  exists n, (psjf_nth n (psjf_start w title processes)).
  pose proof Hcnt as (_ & _ & Hc).
  pose proof (count_completed_le (p_processes (psjf_nth n (psjf_start w title processes)))).
  split_and!; try done.
  - unfold SJFPrioritySchedule. by rewrite Hrun.
  - apply count_completed_full. lia.
  - lia.
Qed.

Lemma psjf_loop_short (m : nat) (v : psjf_vars) :
  (∀ k, (k <= m)%nat → loop_cond (psjf_nth k v)) → psjf_loop m v = None.
Proof.
  intros Hcond. replace m with (m + 0)%nat by lia.
  rewrite psjf_loop_nth by (intros k Hk; apply Hcond; lia).
  specialize (Hcond m ltac:(lia)). unfold loop_cond in Hcond. simpl.
  by destruct (Nat.ltb_spec (p_completed (psjf_nth m v)) (length (p_processes (psjf_nth m v))));
    [|lia].
Qed.

Lemma once_each_iter (w0 : Writer) (v : psjf_vars) :
  once_each w0 v → once_each w0 (psjf_iter v).
Proof.
  intros (lines & Hw & Hperm).
  destruct (decide (ready_indices (p_processes v) (p_currentTime v) = [])) as [Hnil|Hne].
  - rewrite (psjf_iter_idle v Hnil). by exists lines.
  - destruct (psjf_iter_busy v Hne) as (idx & p & Hp & Hc & _ & ->).
    eexists (lines ++ [_]). simpl. split.
    + rewrite Hw, <- app_assoc. reflexivity.
    + rewrite completed_in_log_app, (completed_pids_alter _ _ _ Hp Hc), Hperm.
      cbn. by rewrite <- Permutation_cons_append.
Qed.

Lemma flags_only_iter (l0 : list Process) (v : psjf_vars) :
  flags_only (p_processes v) l0 → flags_only (p_processes (psjf_iter v)) l0.
Proof.
  intros Hl.
  destruct (decide (ready_indices (p_processes v) (p_currentTime v) = [])) as [Hnil|Hne].
  - by rewrite (psjf_iter_idle v Hnil).
  - destruct (psjf_iter_busy v Hne) as (idx & p & _ & _ & _ & ->). simpl.
    by apply flags_only_alter.
Qed.

(** X6. [SJFPrioritySchedule] (no [Completed] flag set on entry) runs every
    process exactly once: the process IDs of its completion lines are those
    of the input, each as often as it occurs there. *)
Theorem psjf_completes_each_process_once (w : Writer) (title : string)
    (processes : list Process) :
  Forall well_typed processes → Forall (λ p, Completed p = false) processes →
  ∃ n lines a b c processes',
    SJFPrioritySchedule n w title processes
      = Some (w ++ LogHeader title :: lines
                ++ [LogAvgWait a; LogAvgTurnaround b; LogThroughput c], processes') ∧
    completed_in_log lines ≡ₚ ProcessID <$> processes.
Proof.
  intros Hwt Hfalse.
  assert (Forall arrival_typed processes) as Hat
    by (eapply Forall_impl; [exact Hwt|]; by intros p (Ha & _)).
  pose proof (sort_Slice_perm arrival_less processes) as Hperm.
  assert (Forall (λ p, Completed p = false) (sort_Slice arrival_less processes))
    as Hfalse' by (by rewrite Hperm).
  destruct (psjf_run_maintains
              (λ v, once_each (w ++ [LogHeader title]) v ∧
                    flags_only (p_processes v) (sort_Slice arrival_less processes))
              w title processes Hat Hfalse)
    as (n & final & _ & _ & _ & Hout & ((lines & Hw & Hlog) & Hflags) & _ & Hall & _).
  { split.
    - exists []. simpl. rewrite app_nil_r. split; [done|].
      by rewrite (completed_pids_none _ Hfalse').
    - apply flags_only_refl. }
  { intros u _ _ (Honce & Hfl). split; [by apply once_each_iter|by apply flags_only_iter]. }
  eexists n, lines, _, _, _, _. split.
  - rewrite Hout, psjf_finish_spec, Hw, <- !app_assoc. reflexivity.
  - rewrite Hlog, (completed_pids_all _ Hall),
      (flags_only_full _ _ Hflags Hall Hfalse'), <- list_fmap_compose.
    assert ((ProcessID ∘ set_Completed) <$> sort_Slice arrival_less processes
            = ProcessID <$> sort_Slice arrival_less processes) as ->
      by (by apply list_fmap_ext).
    by apply fmap_Permutation.
Qed.

(** X7. [SJFPrioritySchedule] changes the caller's slice: it returns it
    sorted by arrival time with every [Completed] flag set and nothing else
    changed.  So a second call on the slice it leaves, when there is any
    process in it, never returns. *)
Theorem psjf_leaves_slice_flagged (w : Writer) (title : string)
    (processes : list Process) :
  Forall well_typed processes → Forall (λ p, Completed p = false) processes →
  ∃ n out,
    SJFPrioritySchedule n w title processes
      = Some (out, set_Completed <$> sort_Slice arrival_less processes) ∧
    (processes ≠ [] →
     ∀ fuel w' title',
       SJFPrioritySchedule fuel w' title'
         (set_Completed <$> sort_Slice arrival_less processes) = None).
Proof.
  intros Hwt Hfalse.
  assert (Forall arrival_typed processes) as Hat
    by (eapply Forall_impl; [exact Hwt|]; by intros p (Ha & _)).
  pose proof (sort_Slice_perm arrival_less processes) as Hperm.
  assert (Forall (λ p, Completed p = false) (sort_Slice arrival_less processes))
    as Hfalse' by (by rewrite Hperm).
  destruct (psjf_run_maintains
              (λ v, flags_only (p_processes v) (sort_Slice arrival_less processes))
              w title processes Hat Hfalse)
    as (n & final & _ & _ & _ & Hout & Hflags & _ & Hall & _).
  { apply flags_only_refl. }
  { intros u _ _ Hfl. by apply flags_only_iter. }
  eexists n, _. split.
  - rewrite Hout, psjf_finish_spec, (flags_only_full _ _ Hflags Hall Hfalse'). reflexivity.
  - intros Hne fuel w' title'. unfold SJFPrioritySchedule.
    rewrite lagging_loop; [done|]. unfold psjf_start. simpl.
    rewrite (count_completed_perm _ _ (sort_Slice_perm arrival_less _)),
      count_completed_flagged.
    assert (length (sort_Slice arrival_less processes) = length processes) as ->
      by (by rewrite Hperm).
    destruct processes; [done|simpl; lia].
Qed.

End LineByLine.

(** ** The clock of [SJFPrioritySchedule] on a valid process set that fits *)

Lemma exact_step_values (w0 : Writer) (v : psjf_vars) (idx : nat) (p : Process) :
  exact_run w0 v → p_processes v !! idx = Some p → Completed p = false →
  ArrivalTime p <= p_currentTime v →
  0 <= ArrivalTime p ∧ 0 < BurstDuration p ∧
  Int64.sub (p_currentTime v) (ArrivalTime p) = p_currentTime v - ArrivalTime p ∧
  Int64.add (p_currentTime v) (BurstDuration p) = p_currentTime v + BurstDuration p ∧
  Int64.add (p_currentTime v - ArrivalTime p) (BurstDuration p)
    = p_currentTime v - ArrivalTime p + BurstDuration p.
Proof.
  intros (_ & Hvalid & Hfit & Hcur & Hrem & _) Hp Hpc Hpa.
  pose proof (remaining_burst_bound _ _ _ Hvalid Hp Hpc) as Hpb.
  pose proof (proj1 (Forall_forall _ _) Hvalid p (list_elem_of_lookup_2 _ _ _ Hp))
    as (Hpa0 & Hpb0).
  split_and!; [done|done| | |].
  - apply sub_exact; in_range_lia.
  - apply add_exact; in_range_lia.
  - apply add_exact; in_range_lia.
Qed.

Section Clock.
Context `{Sorter}.

Lemma runs_of_log_app (w1 w2 : Writer) :
  runs_of_log (w1 ++ w2) = runs_of_log w1 ++ runs_of_log w2.
Proof. unfold runs_of_log. apply bind_app. Qed.

Lemma runs_of_log_pids (lines : Writer) :
  Forall timed_line lines → PID <$> runs_of_log lines = completed_in_log lines.
Proof.
  induction 1 as [|o lines Ho _ IH]; [done|].
  change (o :: lines) with ([o] ++ lines).
  rewrite runs_of_log_app, completed_in_log_app, fmap_app, IH.
  by destruct o.
Qed.

Lemma sequential_snoc (t : Z) (tl : list TimeSlice) (s : TimeSlice) :
  sequential t tl → Forall (λ r, Stop r <= Start s) tl →
  t <= Start s → Start s <= Stop s → sequential t (tl ++ [s]).
Proof.
  revert t. induction tl as [|r tl IH]; intros t; simpl.
  - done.
  - intros (Ht & Hr & Hseq) Hall Hts Hs. apply Forall_cons in Hall as [Hr' Hall].
    split_and!; [done|done|]. by apply IH.
Qed.

Lemma in_time_order_iter (w0 : Writer) (v : psjf_vars) :
  exact_run w0 v → loop_cond v → in_time_order w0 v → in_time_order w0 (psjf_iter v).
Proof.
  intros Hexact Hcond (lines & Hw & Htimed & Hsorted & Hbelow & Hseq & Hstops).
  pose proof Hexact as (Hcnt & _ & _ & Hcur & _).
  destruct (decide (ready_indices (p_processes v) (p_currentTime v) = [])) as [Hnil|Hne].
  - rewrite (idle_tick_exact v Hcnt Hcond Hnil). exists lines. simpl.
    split_and!; try done.
    + eapply Forall_impl; [exact Hbelow|]. simpl. intros; lia.
    + eapply Forall_impl; [exact Hstops|]. simpl. intros; lia.
  - destruct (psjf_iter_busy v Hne) as (idx & p & Hp & Hpc & Hpa & ->).
    destruct (exact_step_values w0 v idx p Hexact Hp Hpc Hpa)
      as (Ha0 & Hb0 & Hsub & Hadd & Hadd').
    eexists (lines ++ [_]). simpl. rewrite Hsub, Hadd, Hadd'. split_and!.
    + rewrite Hw, <- app_assoc. reflexivity.
    + apply Forall_app. split; [done|]. constructor; [|done]. simpl. lia.
    + rewrite completion_times_app. apply StronglySorted_app_2; [|done|].
      * intros c1 c2 Hc1 Hc2. rewrite Forall_forall in Hbelow. specialize (Hbelow c1 Hc1).
        cbn in Hc2. apply list_elem_of_singleton in Hc2 as ->. lia.
      * cbn. repeat constructor.
    + rewrite completion_times_app. apply Forall_app. split.
      * eapply Forall_impl; [exact Hbelow|]. simpl. intros; lia.
      * cbn. constructor; [lia|done].
    + rewrite runs_of_log_app. cbn. apply sequential_snoc; simpl; [done| |lia|lia].
      eapply Forall_impl; [exact Hstops|]. simpl. intros; lia.
    + rewrite runs_of_log_app. apply Forall_app. split.
      * eapply Forall_impl; [exact Hstops|]. simpl. intros; lia.
      * cbn. constructor; [simpl; lia|done].
Qed.

Lemma runs_from_iter (l0 : list Process) (w0 : Writer) (v : psjf_vars) :
  exact_run w0 v → flags_only (p_processes v) l0 →
  runs_from l0 w0 v → runs_from l0 w0 (psjf_iter v).
Proof.
  intros Hexact Hflags (lines & Hw & Hruns).
  destruct (decide (ready_indices (p_processes v) (p_currentTime v) = [])) as [Hnil|Hne].
  - rewrite (psjf_iter_idle v Hnil). by exists lines.
  - destruct (psjf_iter_busy v Hne) as (idx & p & Hp & Hpc & Hpa & ->).
    destruct (exact_step_values w0 v idx p Hexact Hp Hpc Hpa)
      as (Ha0 & Hb0 & Hsub & Hadd & Hadd').
    destruct (Forall2_lookup_l _ _ _ _ _ Hflags Hp) as (q & Hq & Hpq).
    eexists (lines ++ [_]). simpl. rewrite Hsub, Hadd, Hadd'. split.
    + rewrite Hw, <- app_assoc. reflexivity.
    + rewrite runs_of_log_app. apply Forall_app. split; [done|].
      cbn. constructor; [|done].
      exists q. split; [by eapply list_elem_of_lookup_2|].
      destruct Hpq as [-> | ->]; simpl in *; (split_and!; [done|lia|lia]).
Qed.

(** X8. On a valid process set that fits (no [Completed] flag set on entry),
    every completion line of [SJFPrioritySchedule] has a waiting time of at
    least 0, a turnaround above the waiting time and a completion time no
    earlier than the turnaround, and the completion times go up strictly
    from line to line.  The runs the lines report, each from the completion
    time less the time run (turnaround less waiting) to the completion
    time, are one for each process of the input; each is the run of a
    process of the input, starting no earlier than the process arrives and
    lasting its burst duration; and they follow one another from time 0 on
    in the order of the lines, each starting no earlier than the one before
    it stops: no process runs before it arrives, and no two run at once. *)
Theorem psjf_lines_in_time_order (w : Writer) (title : string) (processes : list Process) :
  Forall valid_process processes → fits_int64 processes →
  Forall (λ p, Completed p = false) processes →
  ∃ n lines a b c processes',
    SJFPrioritySchedule n w title processes
      = Some (w ++ LogHeader title :: lines
                ++ [LogAvgWait a; LogAvgTurnaround b; LogThroughput c], processes') ∧
    length lines = length processes ∧
    Forall timed_line lines ∧
    StronglySorted Z.lt (completion_times lines) ∧
    PID <$> runs_of_log lines ≡ₚ ProcessID <$> processes ∧
    Forall (run_of_process processes) (runs_of_log lines) ∧
    sequential 0 (runs_of_log lines) ∧
    non_overlapping (runs_of_log lines).
Proof.
  intros Hvalid Hfit Hfalse.
  pose proof (valid_fits_arrival_typed _ Hvalid Hfit) as Hat.
  pose proof (sort_Slice_perm arrival_less processes) as Hperm.
  assert (Forall (λ p, Completed p = false) (sort_Slice arrival_less processes))
    as Hfalse' by (by rewrite Hperm).
  destruct (psjf_run_maintains
              (λ v, exact_run (w ++ [LogHeader title]) v ∧
                    in_time_order (w ++ [LogHeader title]) v ∧
                    once_each (w ++ [LogHeader title]) v ∧
                    flags_only (p_processes v) (sort_Slice arrival_less processes) ∧
                    runs_from (sort_Slice arrival_less processes)
                              (w ++ [LogHeader title]) v)
              w title processes Hat Hfalse)
    as (n & final & _ & _ & _ & Hout
        & (Hexact & (lines & Hw & Htimed & Hsorted & _ & Hseq & _)
           & (lines1 & Hw1 & Hlog) & Hflags & (lines2 & Hw2 & Hruns))
        & _ & Hall & Hcompleted).
  { split_and!.
    - by apply exact_run_start.
    - exists []. simpl. rewrite app_nil_r. split_and!; try done; constructor.
    - exists []. simpl. rewrite app_nil_r. split; [done|].
      by rewrite (completed_pids_none _ Hfalse').
    - apply flags_only_refl.
    - exists []. simpl. rewrite app_nil_r. split; [done|constructor]. }
  { intros u _ Hc (He & Ho & Honce & Hfl & Hru). split_and!.
    - by apply exact_run_iter.
    - by apply in_time_order_iter.
    - by apply once_each_iter.
    - by apply flags_only_iter.
    - by apply runs_from_iter. }
  destruct Hexact as (_ & _ & _ & _ & _ & lines' & Hw' & _ & Hlen & _).
  rewrite Hw in Hw', Hw1, Hw2.
  apply app_inv_head in Hw' as <-. apply app_inv_head in Hw1 as <-.
  apply app_inv_head in Hw2 as <-.
  eexists n, lines, _, _, _, _. split_and!; [|lia|done|done| | |done|].
  - rewrite Hout, psjf_finish_spec, Hw, <- !app_assoc. reflexivity.
  - rewrite (runs_of_log_pids _ Htimed), Hlog, (completed_pids_all _ Hall),
      (flags_only_full _ _ Hflags Hall Hfalse'), <- list_fmap_compose.
    assert ((ProcessID ∘ set_Completed) <$> sort_Slice arrival_less processes
            = ProcessID <$> sort_Slice arrival_less processes) as ->
      by (by apply list_fmap_ext).
    by apply fmap_Permutation.
  - eapply Forall_impl; [exact Hruns|].
    intros s (p & Hin & Hs). exists p. split; [|done]. by rewrite <- Hperm.
  - by eapply sequential_non_overlapping.
Qed.

Lemma totals_iter (v : psjf_vars) :
  total_burst (p_processes (psjf_iter v)) = total_burst (p_processes v) ∧
  total_demand (p_processes (psjf_iter v)) = total_demand (p_processes v).
Proof.
  destruct (decide (ready_indices (p_processes v) (p_currentTime v) = [])) as [Hnil|Hne].
  - by rewrite (psjf_iter_idle v Hnil).
  - destruct (psjf_iter_busy v Hne) as (idx & p & _ & _ & _ & ->). simpl.
    by rewrite total_burst_alter, total_demand_alter.
Qed.

(** Every iteration is one unit of [progress]: an idle tick adds one to the
    clock, a run moves a burst duration from the work left to the clock and
    counts one completion. *)
Lemma progress_iter (w0 : Writer) (v : psjf_vars) :
  exact_run w0 v → loop_cond v → progress (psjf_iter v) = progress v + 1.
Proof.
  intros Hexact Hcond. pose proof Hexact as (Hcnt & _). unfold progress.
  destruct (decide (ready_indices (p_processes v) (p_currentTime v) = [])) as [Hnil|Hne].
  - rewrite (idle_tick_exact v Hcnt Hcond Hnil). simpl. lia.
  - destruct (psjf_iter_busy v Hne) as (idx & p & Hp & Hpc & Hpa & ->).
    destruct (exact_step_values w0 v idx p Hexact Hp Hpc Hpa) as (_ & _ & _ & Hadd & _).
    simpl. rewrite Hadd, (remaining_burst_alter _ _ _ Hp Hpc). lia.
Qed.

(** The clock never falls behind the work done. *)
Lemma work_done_iter (w0 : Writer) (v : psjf_vars) :
  exact_run w0 v → loop_cond v →
  p_currentTime v + remaining_burst (p_processes v)
  <= p_currentTime (psjf_iter v) + remaining_burst (p_processes (psjf_iter v)).
Proof.
  intros Hexact Hcond. pose proof Hexact as (Hcnt & _).
  destruct (decide (ready_indices (p_processes v) (p_currentTime v) = [])) as [Hnil|Hne].
  - rewrite (idle_tick_exact v Hcnt Hcond Hnil). simpl. lia.
  - destruct (psjf_iter_busy v Hne) as (idx & p & Hp & Hpc & Hpa & ->).
    destruct (exact_step_values w0 v idx p Hexact Hp Hpc Hpa) as (_ & _ & _ & Hadd & _).
    simpl. rewrite Hadd, (remaining_burst_alter _ _ _ Hp Hpc). lia.
Qed.

Lemma progress_nth (w0 : Writer) (n : nat) (v : psjf_vars) :
  exact_run w0 v → (∀ k, (k < n)%nat → loop_cond (psjf_nth k v)) →
  progress (psjf_nth n v) = progress v + Z.of_nat n.
Proof.
  revert v. induction n as [|n IH]; intros v Hexact Hcond; [simpl; lia|].
  assert (loop_cond v) as Hc by (apply (Hcond 0%nat); lia).
  simpl. rewrite IH.
  - rewrite (progress_iter w0 v Hexact Hc). lia.
  - by apply exact_run_iter.
  - intros k Hk. apply (Hcond (S k)). lia.
Qed.

(** X9. On a valid process set that fits (no [Completed] flag set on entry),
    the main loop of [SJFPrioritySchedule] is left after exactly as many
    iterations as there are processes plus idle time units: the final clock
    is at least the sum of the burst durations and at most the total demand,
    and the iteration count is the process count plus the final clock minus
    the sum of the burst durations.  No smaller bound on the iterations lets
    the loop finish. *)
Theorem psjf_iterations_counted (w : Writer) (title : string) (processes : list Process) :
  Forall valid_process processes → fits_int64 processes →
  Forall (λ p, Completed p = false) processes →
  ∃ n final,
    psjf_loop n (psjf_start w title processes) = Some final ∧
    (∀ m, (m < n)%nat → psjf_loop m (psjf_start w title processes) = None) ∧
    total_burst processes <= p_currentTime final <= total_demand processes ∧
    Z.of_nat n
    = Z.of_nat (length processes) + (p_currentTime final - total_burst processes).
Proof.
  intros Hvalid Hfit Hfalse.
  pose proof (valid_fits_arrival_typed _ Hvalid Hfit) as Hat.
  pose proof (sort_Slice_perm arrival_less processes) as Hperm.
  assert (Forall (λ p, Completed p = false) (sort_Slice arrival_less processes))
    as Hfalse' by (by rewrite Hperm).
  pose proof (exact_run_start w title processes Hvalid Hfit Hfalse) as Hstart.
  destruct (psjf_run_maintains
              (λ v, exact_run (w ++ [LogHeader title]) v ∧
                    total_burst (p_processes v) = total_burst processes ∧
                    total_demand (p_processes v) = total_demand processes ∧
                    total_burst processes
                    <= p_currentTime v + remaining_burst (p_processes v))
              w title processes Hat Hfalse)
    as (n & final & Hrun & Hfinal & Hcond & _ & (Hexact & Hb & Hd & Hwork) & _
        & Hall & Hcompleted).
  { split_and!; [done| | |]; simpl.
    - by apply total_burst_perm.
    - by apply total_demand_perm.
    - rewrite (remaining_burst_all _ Hfalse'), (total_burst_perm _ _ Hperm). lia. }
  { intros u _ Hc (He & Hub & Hud & Huw). destruct (totals_iter u) as (Eb & Ed).
    pose proof (work_done_iter _ u He Hc).
    split_and!; [by apply exact_run_iter|congruence|congruence|lia]. }
  rewrite (remaining_burst_zero _ Hall) in Hwork.
  pose proof (progress_nth _ n _ Hstart Hcond) as Hprogress.
  rewrite <- Hfinal in Hprogress. unfold progress in Hprogress.
  rewrite (remaining_burst_zero _ Hall), Hcompleted in Hprogress. simpl in Hprogress.
  rewrite (remaining_burst_all _ Hfalse'), (total_burst_perm _ _ Hperm) in Hprogress.
  destruct Hexact as (_ & _ & _ & Hcur & Hrem & _).
  rewrite (remaining_burst_zero _ Hall), Hd in Hrem.
  exists n, final. split_and!.
  - exact Hrun.
  - intros m Hm. apply psjf_loop_short. intros k Hk. apply Hcond. lia.
  - lia.
  - lia.
  - lia.
Qed.

End Clock.

(** * The clock of [SJFSchedule], and what the schedulers write *)

(** ** The clock of [SJFSchedule] *)

(** C5 as stated fails: the clock is an [int64] and wraps.  On A (arrival
    0, burst [2^63 - 1]) and B (arrival 1, burst 2), both valid,
    [SJFSchedule] runs B first, up to time 3, and then A: the clock after A
    is [- 2^63 + 2], not [max(3, 0) + (2^63 - 1) = 2^63 + 2], and so is the
    turnaround of A. *)
Lemma sjf_clock_wraps :
  Forall valid_process overflowing_processes ∧
  (SJFSchedule [] "SJF" overflowing_processes).2
    = [mkProcess "B" 1 2 2 false 0 0 0;
       mkProcess "A" 0 9223372036854775807 1 false 0 0 0] ∧
  sjf_clock_at (SJFSchedule [] "SJF" overflowing_processes).2 1 = 3 ∧
  sjf_clock_at (SJFSchedule [] "SJF" overflowing_processes).2 2 = -9223372036854775806 ∧
  sjf_clock_at (SJFSchedule [] "SJF" overflowing_processes).2 2
    ≠ Z.max (sjf_clock_at (SJFSchedule [] "SJF" overflowing_processes).2 1) 0
      + 9223372036854775807 ∧
  reported_turnarounds (SJFSchedule [] "SJF" overflowing_processes).1
    = [2; -9223372036854775806] ∧
  -9223372036854775806
    ≠ Z.max (sjf_clock_at (SJFSchedule [] "SJF" overflowing_processes).2 1) 0
      + 9223372036854775807 - 0.
Proof.
  split_and!.
  - decide_Forall.
  - vm_compute. reflexivity.
  - vm_compute. reflexivity.
  - vm_compute. reflexivity.
  - vm_compute. discriminate.
  - vm_compute. reflexivity.
  - vm_compute. discriminate.
Qed.

Lemma sjf_columns (c : Z) (l : list Process) :
  one_per_process l (sjf_slices c l) (sjf_rows c l).
Proof.
  unfold one_per_process.
  revert c. induction l as [|p l IH]; intros c; [done|].
  destruct (IH (sjf_clock c p)) as (H1 & H2 & H3 & H4 & H5).
  cbn [sjf_rows sjf_slices fmap list_fmap].
  change (list_fmap ?A ?B ?f ?l) with (f <$> l).
  rewrite H1, H2, H3, H4, H5. done.
Qed.

Section ShortestJobFirstClock.
Context `{Sorter}.

(** C5, amended. For every valid process set (all arrival times at least
    0, all burst durations above 0) whose arrival times and burst durations
    sum to at most [2^63 - 1]: [SJFSchedule] reorders the input by ascending
    burst duration and then, for the process at every position [i] of that
    order, with [currentTime] the clock before the iteration (0 before the
    first), writes the row of that process with
    [waitTime = max(0, currentTime - arrivalTime)], moves the clock to
    [max(currentTime, arrivalTime) + burstDuration], and gives the row the
    new clock less the arrival time as turnaround; [max] is the maximum and
    the arithmetic that of the integers. *)
Theorem sjf_clock_formulas_within_int64 (w : Writer) (title : string)
    (processes : list Process) :
  Forall valid_process processes → fits_int64 processes →
  ∃ sorted rows gantt aveWait aveTurnaround throughput,
    SJFSchedule w title processes =
      (w ++ [OutTitle title; OutGantt gantt;
             OutSchedule (Some <$> rows) aveWait aveTurnaround throughput], sorted) ∧
    sorted ≡ₚ processes ∧ ascending_burst sorted ∧
    sjf_clock_at sorted 0 = 0 ∧
    ∀ i process, sorted !! i = Some process →
      ∃ row, rows !! i = Some row ∧
        row_pid row = ProcessID process ∧
        row_waiting row
          = Z.max 0 (sjf_clock_at sorted i - ArrivalTime process) ∧
        sjf_clock_at sorted (S i)
          = Z.max (sjf_clock_at sorted i) (ArrivalTime process)
            + BurstDuration process ∧
        row_turnaround row
          = sjf_clock_at sorted (S i) - ArrivalTime process.
Proof.
  intros Hvalid Hfit.
  pose proof (sort_Slice_perm burst_less processes) as Hperm.
  eexists _, _, _, _, _, _. split; [apply SJFSchedule_spec|].
  split_and!.
  - done.
  - apply sorted_by_burst.
  - reflexivity.
  - intros i p Hi. eexists. split; [by apply sjf_rows_lookup|].
    rewrite (sjf_clock_at_S _ _ _ Hi), sjf_clock_at_spec.
    destruct (sjf_clock_bound (sort_Slice burst_less processes) 0 i) as (Hlo & Hhi).
    { lia. }
    { by rewrite Hperm. }
    { rewrite (total_demand_perm _ _ Hperm). in_range_lia. }
    set (c := foldl sjf_clock 0 (take i (sort_Slice burst_less processes))) in *.
    assert (valid_process p ∧ ArrivalTime p + BurstDuration p
            <= total_demand (drop i (sort_Slice burst_less processes))) as ((Ha & Hb) & Hp).
    { assert (Forall valid_process (sort_Slice burst_less processes)) as Hv
        by (by rewrite Hperm).
      rewrite (drop_S _ _ _ Hi), total_demand_cons.
      pose proof (total_demand_ge_burst (drop (S i) (sort_Slice burst_less processes))
                    (Forall_drop _ _ _ Hv)).
      rewrite Forall_forall in Hv. split; [|lia].
      apply Hv. by eapply list_elem_of_lookup_2. }
    assert (sjf_clock c p = Z.max c (ArrivalTime p) + BurstDuration p) as Hclock.
    { unfold sjf_clock. rewrite max_spec. apply add_exact. in_range_lia. }
    split_and!.
    + done.
    + simpl. rewrite max_spec, sub_exact; [done|in_range_lia].
    + exact Hclock.
    + simpl. rewrite sub_exact; rewrite Hclock; [done|in_range_lia].
Qed.

End ShortestJobFirstClock.

(** ** What the schedulers write *)

Lemma fcfs_consistent_all (s w : Z) (l : list Process) :
  Forall2 fcfs_consistent (fcfs_slices s w l) (fcfs_rows s w l).
Proof.
  revert s w. induction l as [|p l IH]; intros s w; cbn [fcfs_slices fcfs_rows].
  - constructor.
  - constructor; [|apply IH]. by repeat split.
Qed.

Lemma sjf_consistent_all (c : Z) (l : list Process) :
  Forall2 sjf_consistent (sjf_slices c l) (sjf_rows c l).
Proof.
  revert c. induction l as [|p l IH]; intros c; cbn [sjf_slices sjf_rows].
  - constructor.
  - constructor; [|apply IH]. by repeat split.
Qed.

Lemma total_of_float_sum (f : Row → Z) (rows : list Row) :
  total_of f Float64.zero rows = float_sum (f <$> rows).
Proof.
  unfold total_of, float_sum. generalize Float64.zero.
  induction rows as [|r rows IH]; intros start; [done|]. cbn. apply IH.
Qed.

Lemma last_completion_float (rows : list Row) :
  last_completion Float64.zero rows
  = Float64.of_int (default 0 (last (row_completion <$> rows))).
Proof. unfold last_completion. rewrite fmap_last. by destruct (last rows). Qed.

Lemma sjf_final_clock (c : Z) (l : list Process) :
  foldl sjf_clock c l = default c (last (row_completion <$> sjf_rows c l)).
Proof.
  revert c. induction l as [|p l IH]; intros c; [done|].
  cbn [sjf_rows foldl fmap list_fmap].
  change (list_fmap ?A ?B ?f ?l) with (f <$> l).
  rewrite IH, last_cons.
  by destruct (last (row_completion <$> sjf_rows (sjf_clock c p) l)).
Qed.

Lemma float_sum_snoc (l : list Z) (x : Z) :
  float_sum (l ++ [x]) = Float64.add (float_sum l) (Float64.of_int x).
Proof. unfold float_sum. by rewrite foldl_app. Qed.

Section Written.
Context `{Sorter}.

Lemma totals_logged_iter (w0 : Writer) (v : psjf_vars) :
  totals_logged w0 v → totals_logged w0 (psjf_iter v).
Proof.
  intros (lines & Hw & Hwait & Hturn).
  destruct (decide (ready_indices (p_processes v) (p_currentTime v) = [])) as [Hnil|Hne].
  - rewrite (psjf_iter_idle v Hnil). by exists lines.
  - destruct (psjf_iter_busy v Hne) as (idx & p & _ & _ & _ & ->).
    eexists (lines ++ [_]). simpl. split_and!.
    + rewrite Hw, <- app_assoc. reflexivity.
    + rewrite reported_waits_app, Hwait. cbn. by rewrite float_sum_snoc.
    + rewrite reported_turnarounds_app, Hturn. cbn. by rewrite float_sum_snoc.
Qed.

Lemma logged_nth (w : Writer) (title : string) (processes : list Process) (k : nat) :
  logged (w ++ [LogHeader title]) (psjf_nth k (psjf_start w title processes)).
Proof.
  induction k as [|k IH].
  - exists []. simpl. by rewrite app_nil_r.
  - rewrite psjf_nth_S. by apply logged_iter.
Qed.

(** The clock a run leaves is the completion time of its last line, and 0
    when it wrote none. *)
Lemma psjf_final_clock (w : Writer) (title : string) (processes : list Process)
    (n : nat) (lines : Writer) :
  (∀ k, (k < n)%nat → loop_cond (psjf_nth k (psjf_start w title processes))) →
  ¬ loop_cond (psjf_nth n (psjf_start w title processes)) →
  p_w (psjf_nth n (psjf_start w title processes)) = (w ++ [LogHeader title]) ++ lines →
  p_currentTime (psjf_nth n (psjf_start w title processes))
  = default 0 (last (completion_times lines)).
Proof.
  intros Hcond Hexit Hw.
  destruct n as [|n].
  - simpl in Hw |- *. unfold Fprintf in Hw.
    rewrite <- (app_nil_r (w ++ [LogHeader title])) in Hw at 1.
    apply app_inv_head in Hw as <-. done.
  - assert (loop_cond (psjf_start w title processes)) as Hc0
      by (apply (Hcond 0%nat); lia).
    destruct (psjf_last_iteration _ (S n) Hc0 Hcond Hexit)
      as (u & idx & p & _ & Hfinal & k & ->).
    destruct (logged_nth w title processes k) as (before & Hwu & _ & _).
    rewrite Hfinal in Hw |- *. simpl in Hw |- *.
    rewrite Hwu, <- app_assoc in Hw. apply app_inv_head in Hw as <-.
    rewrite completion_times_app. cbn. by rewrite last_snoc.
Qed.

(** C7, amended. [FCFSSchedule] and [SJFSchedule], on any process set,
    each hand to the writer the title, a timeline with one segment per
    process and a table with one row per process, in the order the
    scheduler runs them (the input order, and the order of ascending burst
    duration), segment and row going together, and with the table the
    three aggregates: the average of the
    waiting times and of the turnaround times in the rows, and the count
    over the last completion time.  [SJFPrioritySchedule] (no [Completed]
    flag set on entry) writes the header, one completion line per process
    and the three aggregates, and no timeline.  [RRSchedule] writes
    nothing. *)
Theorem what_each_scheduler_produces (w : Writer) (title : string)
    (processes : list Process) :
  (∃ gantt rows a b c,
     FCFSSchedule w title processes
       = w ++ [OutTitle title; OutGantt gantt; OutSchedule (Some <$> rows) a b c] ∧
     one_per_process processes gantt rows ∧
     Forall2 fcfs_consistent gantt rows ∧
     aggregates_from (length processes) (row_waiting <$> rows)
       (row_turnaround <$> rows) (row_completion <$> rows) a b c) ∧
  (∃ sorted gantt rows a b c,
     SJFSchedule w title processes
       = (w ++ [OutTitle title; OutGantt gantt; OutSchedule (Some <$> rows) a b c],
          sorted) ∧
     sorted ≡ₚ processes ∧ ascending_burst sorted ∧
     one_per_process sorted gantt rows ∧
     Forall2 sjf_consistent gantt rows ∧
     aggregates_from (length processes) (row_waiting <$> rows)
       (row_turnaround <$> rows) (row_completion <$> rows) a b c) ∧
  (Forall well_typed processes → Forall (λ p, Completed p = false) processes →
   ∃ n lines a b c processes',
     SJFPrioritySchedule n w title processes
       = Some (w ++ LogHeader title :: lines
                 ++ [LogAvgWait a; LogAvgTurnaround b; LogThroughput c], processes') ∧
     Forall is_completion lines ∧ length lines = length processes ∧
     completed_in_log lines ≡ₚ ProcessID <$> processes ∧
     aggregates_from (length processes) (reported_waits lines)
       (reported_turnarounds lines) (completion_times lines) a b c) ∧
  RRSchedule w title processes = w.
Proof.
  split_and!.
  - eexists _, _, _, _, _. split; [apply FCFSSchedule_spec|].
    split; [apply fcfs_columns|]. split; [apply fcfs_consistent_all|].
    unfold aggregates_from. by rewrite !total_of_float_sum, last_completion_float.
  - pose proof (sort_Slice_perm burst_less processes) as Hperm.
    eexists _, _, _, _, _, _. split; [apply SJFSchedule_spec|].
    split; [done|]. split; [apply sorted_by_burst|]. split; [apply sjf_columns|].
    split; [apply sjf_consistent_all|].
    unfold aggregates_from.
    by rewrite !total_of_float_sum, sjf_final_clock, (Permutation_length Hperm).
  - intros Hwt Hfalse.
    assert (Forall arrival_typed processes) as Hat
      by (eapply Forall_impl; [exact Hwt|]; by intros p (Ha & _)).
    pose proof (sort_Slice_perm arrival_less processes) as Hperm.
    assert (Forall (λ p, Completed p = false) (sort_Slice arrival_less processes))
      as Hfalse' by (by rewrite Hperm).
    destruct (psjf_run_maintains
                (λ v, logged (w ++ [LogHeader title]) v ∧
                      once_each (w ++ [LogHeader title]) v ∧
                      flags_only (p_processes v) (sort_Slice arrival_less processes) ∧
                      totals_logged (w ++ [LogHeader title]) v)
                w title processes Hat Hfalse)
      as (n & final & _ & -> & Hcond & Hout
          & ((lines & Hw & Hl & Hlen) & (lines1 & Hw1 & Hlog) & Hflags
             & (lines2 & Hw2 & Hwait & Hturn))
          & _ & Hall & Hcompleted).
    { split_and!.
      - exists []. simpl. by rewrite app_nil_r.
      - exists []. simpl. rewrite app_nil_r. split; [done|].
        by rewrite (completed_pids_none _ Hfalse').
      - apply flags_only_refl.
      - exists []. simpl. by rewrite app_nil_r. }
    { intros u _ _ (H1 & H2 & H3 & H4). split_and!.
      - by apply logged_iter.
      - by apply once_each_iter.
      - by apply flags_only_iter.
      - by apply totals_logged_iter. }
    rewrite Hw in Hw1, Hw2.
    apply app_inv_head in Hw1 as <-. apply app_inv_head in Hw2 as <-.
    pose proof (psjf_nth_length n (psjf_start w title processes)) as Hlength.
    assert (length (p_processes (psjf_start w title processes)) = length processes)
      as Hlen0 by (simpl; by rewrite Hperm).
    rewrite Hlen0 in Hlength.
    assert (¬ loop_cond (psjf_nth n (psjf_start w title processes))) as Hexit
      by (unfold loop_cond; lia).
    pose proof (psjf_final_clock w title processes n lines Hcond Hexit Hw) as Hclock.
    eexists n, lines, _, _, _, _. split_and!.
    + rewrite Hout, psjf_finish_spec, Hw, <- !app_assoc. reflexivity.
    + done.
    + lia.
    + rewrite Hlog, (completed_pids_all _ Hall),
        (flags_only_full _ _ Hflags Hall Hfalse'), <- list_fmap_compose.
      assert ((ProcessID ∘ set_Completed) <$> sort_Slice arrival_less processes
              = ProcessID <$> sort_Slice arrival_less processes) as ->
        by (by apply list_fmap_ext).
      by apply fmap_Permutation.
    + unfold aggregates_from. by rewrite Hlength, Hwait, Hturn, Hclock.
  - reflexivity.
Qed.

End Written.

(** ** The further properties at concrete inputs *)


Lemma sjf_runs_after_arrival_witness :
  Forall valid_process example_processes ∧ fits_int64 example_processes ∧
  ∃ sorted gantt rows a b c,
    SJFSchedule [] "SJF" example_processes
      = ([] ++ [OutTitle "SJF"; OutGantt gantt; OutSchedule (Some <$> rows) a b c],
         sorted) ∧
    ∀ i p, sorted !! i = Some p →
      ∃ seg row,
        gantt !! i = Some seg ∧ rows !! i = Some row ∧
        PID seg = ProcessID p ∧
        Start seg = Z.max (sjf_clock_at sorted i) (ArrivalTime p) ∧
        Stop seg = Start seg + BurstDuration p ∧
        row_waiting row = Start seg - ArrivalTime p ∧
        row_completion row = Stop seg.
Proof.
  assert (Forall valid_process example_processes) as Hvalid by decide_Forall.
  assert (fits_int64 example_processes) as Hfit by decide_Z.
  split; [exact Hvalid|]. split; [exact Hfit|].
  exact (@sjf_runs_after_arrival merge_Sorter [] "SJF" example_processes Hvalid Hfit).
Defined.

Lemma psjf_completes_each_process_once_witness :
  Forall well_typed example_processes ∧
  ∃ n lines a b c processes',
    SJFPrioritySchedule n [] "PSJF" example_processes
      = Some ([] ++ LogHeader "PSJF" :: lines
                ++ [LogAvgWait a; LogAvgTurnaround b; LogThroughput c], processes') ∧
    completed_in_log lines ≡ₚ ProcessID <$> example_processes.
Proof.
  assert (Forall well_typed example_processes) as Hwt by decide_Forall.
  assert (Forall (λ p, Completed p = false) example_processes) as Hfalse by decide_Forall.
  split; [exact Hwt|].
  exact (@psjf_completes_each_process_once merge_Sorter [] "PSJF" example_processes
           Hwt Hfalse).
Defined.

Lemma psjf_leaves_slice_flagged_witness :
  Forall well_typed example_processes ∧
  ∃ n out,
    SJFPrioritySchedule n [] "PSJF" example_processes
      = Some (out, set_Completed <$> sort_Slice arrival_less example_processes) ∧
    (example_processes ≠ [] →
     ∀ fuel w' title',
       SJFPrioritySchedule fuel w' title'
         (set_Completed <$> sort_Slice arrival_less example_processes) = None).
Proof.
  assert (Forall well_typed example_processes) as Hwt by decide_Forall.
  assert (Forall (λ p, Completed p = false) example_processes) as Hfalse by decide_Forall.
  split; [exact Hwt|].
  exact (@psjf_leaves_slice_flagged merge_Sorter [] "PSJF" example_processes Hwt Hfalse).
Defined.

Lemma psjf_lines_in_time_order_witness :
  Forall valid_process example_processes ∧ fits_int64 example_processes ∧
  Forall (λ p, Completed p = false) example_processes ∧
  ∃ n lines a b c processes',
    SJFPrioritySchedule n [] "PSJF" example_processes
      = Some ([] ++ LogHeader "PSJF" :: lines
                ++ [LogAvgWait a; LogAvgTurnaround b; LogThroughput c], processes') ∧
    length lines = length example_processes ∧
    Forall timed_line lines ∧
    StronglySorted Z.lt (completion_times lines) ∧
    PID <$> runs_of_log lines ≡ₚ ProcessID <$> example_processes ∧
    Forall (run_of_process example_processes) (runs_of_log lines) ∧
    sequential 0 (runs_of_log lines) ∧
    non_overlapping (runs_of_log lines).
Proof.
  assert (Forall valid_process example_processes) as Hvalid by decide_Forall.
  assert (fits_int64 example_processes) as Hfit by decide_Z.
  assert (Forall (λ p, Completed p = false) example_processes) as Hfalse by decide_Forall.
  split; [exact Hvalid|]. split; [exact Hfit|]. split; [exact Hfalse|].
  exact (@psjf_lines_in_time_order merge_Sorter [] "PSJF" example_processes
           Hvalid Hfit Hfalse).
Defined.

Lemma psjf_iterations_counted_witness :
  Forall valid_process example_processes ∧ fits_int64 example_processes ∧
  ∃ n final,
    psjf_loop n (psjf_start [] "PSJF" example_processes) = Some final ∧
    (∀ m, (m < n)%nat → psjf_loop m (psjf_start [] "PSJF" example_processes) = None) ∧
    total_burst example_processes <= p_currentTime final
      <= total_demand example_processes ∧
    Z.of_nat n
    = Z.of_nat (length example_processes)
      + (p_currentTime final - total_burst example_processes).
Proof.
  assert (Forall valid_process example_processes) as Hvalid by decide_Forall.
  assert (fits_int64 example_processes) as Hfit by decide_Z.
  assert (Forall (λ p, Completed p = false) example_processes) as Hfalse by decide_Forall.
  split; [exact Hvalid|]. split; [exact Hfit|].
  exact (@psjf_iterations_counted merge_Sorter [] "PSJF" example_processes
           Hvalid Hfit Hfalse).
Defined.

(** ** The clock of [SJFSchedule] and the reports at concrete inputs *)

Lemma sjf_clock_formulas_witness :
  Forall valid_process example_processes ∧ fits_int64 example_processes ∧
  ∃ sorted rows gantt aveWait aveTurnaround throughput,
    SJFSchedule [] "SJF" example_processes =
      ([] ++ [OutTitle "SJF"; OutGantt gantt;
              OutSchedule (Some <$> rows) aveWait aveTurnaround throughput], sorted) ∧
    sorted ≡ₚ example_processes ∧ ascending_burst sorted ∧
    sjf_clock_at sorted 0 = 0 ∧
    ∀ i process, sorted !! i = Some process →
      ∃ row, rows !! i = Some row ∧
        row_pid row = ProcessID process ∧
        row_waiting row
          = Z.max 0 (sjf_clock_at sorted i - ArrivalTime process) ∧
        sjf_clock_at sorted (S i)
          = Z.max (sjf_clock_at sorted i) (ArrivalTime process)
            + BurstDuration process ∧
        row_turnaround row
          = sjf_clock_at sorted (S i) - ArrivalTime process.
Proof.
  assert (Forall valid_process example_processes) as Hvalid by decide_Forall.
  assert (fits_int64 example_processes) as Hfit by decide_Z.
  split; [exact Hvalid|]. split; [exact Hfit|].
  exact (@sjf_clock_formulas_within_int64 merge_Sorter [] "SJF" example_processes
           Hvalid Hfit).
Defined.

Lemma what_each_scheduler_produces_witness :
  Forall well_typed example_processes ∧
  Forall (λ p, Completed p = false) example_processes ∧
  (∃ n lines a b c processes',
     SJFPrioritySchedule n [] "PSJF" example_processes
       = Some ([] ++ LogHeader "PSJF" :: lines
                 ++ [LogAvgWait a; LogAvgTurnaround b; LogThroughput c], processes') ∧
     Forall is_completion lines ∧ length lines = length example_processes ∧
     completed_in_log lines ≡ₚ ProcessID <$> example_processes ∧
     aggregates_from (length example_processes) (reported_waits lines)
       (reported_turnarounds lines) (completion_times lines) a b c) ∧
  RRSchedule [] "RR" example_processes = [].
Proof.
  assert (Forall well_typed example_processes) as Hwt by decide_Forall.
  assert (Forall (λ p, Completed p = false) example_processes) as Hfalse by decide_Forall.
  split; [exact Hwt|]. split; [exact Hfalse|].
  split.
  - exact (proj1 (proj2 (proj2 (@what_each_scheduler_produces merge_Sorter [] "PSJF"
                                  example_processes))) Hwt Hfalse).
  - exact (proj2 (proj2 (proj2 (@what_each_scheduler_produces merge_Sorter [] "RR"
                                  example_processes)))).
Defined.
